(** * Attendance tracker: normalisation, search, store mutations, CSV codec

    A shallow embedding of the data-transformation code of the attendance
    tracker (TypeScript):

    - [normalizeCourse], [normalizeBatchYear]     (print view, admin console)
    - [globalFilterFn], [filteredAttendees]       (roster, print view, admin console)
    - the Convex mutations and [getStats]         (convex/attendees.ts)
    - [parseCSV] (both revisions) and [exportCSV] (admin console)
    - [sortedDataForExport]                       (print view)

    Strings are sequences of code units, modelled as [list ascii]: the
    strings covered are those of code units below 256.  White space, digits
    and lower-casing are those of JavaScript on every such code unit;
    upper-casing is, except at U+00B5, U+00DF and U+00FF, whose upper case
    is not one code unit below 256 and which are carried along unchanged. *)

From Stdlib Require Import Ascii String.
From Stdlib Require Import List ZArith Lia Bool Arith.
From Stdlib Require Import Permutation Sorted Floats.
Import ListNotations.

Set Implicit Arguments.

(* ================================================================== *)
(** ** JavaScript strings *)
(* ================================================================== *)

Module JS.

Definition jsstring := list ascii.

(** A string literal of the source. *)
Definition str (s : string) : jsstring := list_ascii_of_string s.

Definition code (c : ascii) : nat := nat_of_ascii c.

(** [\d] (no [u] flag): the ten ASCII digits. *)
Definition isDigit (c : ascii) : bool :=
  (48 <=? code c) && (code c <=? 57).

(** [\s] and the white space of [trim] below 256: TAB, LF, VT, FF, CR, SP
    and the no-break space U+00A0. *)
Definition isSpace (c : ascii) : bool :=
  ((9 <=? code c) && (code c <=? 13)) || (code c =? 32) || (code c =? 160).

(** The letters with a lower case, and those with an upper case, one code
    unit below 256 apart by 32: A-Z and U+00C0-U+00DE without the
    multiplication sign; a-z and U+00E0-U+00FE without the division sign. *)
Definition isUpper (c : ascii) : bool :=
  ((65 <=? code c) && (code c <=? 90)) ||
  ((192 <=? code c) && (code c <=? 222) && negb (code c =? 215)).
Definition isLower (c : ascii) : bool :=
  ((97 <=? code c) && (code c <=? 122)) ||
  ((224 <=? code c) && (code c <=? 254) && negb (code c =? 247)).

Definition upperChar (c : ascii) : ascii :=
  if isLower c then ascii_of_nat (code c - 32) else c.
Definition lowerChar (c : ascii) : ascii :=
  if isUpper c then ascii_of_nat (code c + 32) else c.

Definition toUpperCase (s : jsstring) : jsstring := map upperChar s.
Definition toLowerCase (s : jsstring) : jsstring := map lowerChar s.

Definition ascii_eqb (a b : ascii) : bool := Ascii.eqb a b.

Fixpoint string_eqb (a b : jsstring) : bool :=
  match a, b with
  | [], [] => true
  | x :: a', y :: b' => ascii_eqb x y && string_eqb a' b'
  | _, _ => false
  end.

(** A string in a condition: the empty string is falsy. *)
Definition truthy (s : jsstring) : bool :=
  match s with [] => false | _ :: _ => true end.

(** [s.trimStart()], [s.trimEnd()], [s.trim()]. *)
Fixpoint trimStart (s : jsstring) : jsstring :=
  match s with
  | [] => []
  | c :: t => if isSpace c then trimStart t else s
  end.

Definition trimEnd (s : jsstring) : jsstring := rev (trimStart (rev s)).

Definition trim (s : jsstring) : jsstring := trimEnd (trimStart s).

(** [s.replace(/\s+/g, " ")]: every maximal run of white space becomes one
    space.  [inrun] tells that the previous code unit was white space, whose
    run has already been replaced. *)
Fixpoint collapse_from (inrun : bool) (s : jsstring) : jsstring :=
  match s with
  | [] => []
  | c :: t =>
      if isSpace c
      then if inrun then collapse_from true t
           else " "%char :: collapse_from true t
      else c :: collapse_from false t
  end.

Definition replace_spaces (s : jsstring) : jsstring := collapse_from false s.

(** [hay.startsWith(needle)] and [hay.includes(needle)]. *)
Fixpoint startsWith (needle hay : jsstring) : bool :=
  match needle, hay with
  | [], _ => true
  | _ :: _, [] => false
  | x :: n', y :: h' => ascii_eqb x y && startsWith n' h'
  end.

Fixpoint includes (hay needle : jsstring) : bool :=
  startsWith needle hay ||
  match hay with
  | [] => false
  | _ :: h' => includes h' needle
  end.

(** [s.split(sep)] for a one-unit separator: always at least one piece. *)
Fixpoint split_from (sep : ascii) (cur : jsstring) (s : jsstring)
  : list jsstring :=
  match s with
  | [] => [rev cur]
  | c :: t =>
      if ascii_eqb c sep then rev cur :: split_from sep [] t
      else split_from sep (c :: cur) t
  end.

Definition split (sep : ascii) (s : jsstring) : list jsstring :=
  split_from sep [] s.

(** [pieces.join(sep)]. *)
Fixpoint join (sep : jsstring) (pieces : list jsstring) : jsstring :=
  match pieces with
  | [] => []
  | [p] => p
  | p :: rest => p ++ sep ++ join sep rest
  end.

(** [s.match(/\d+/g)]: every maximal run of digits, left to right; [null]
    (here [None]) when there is none.  [cur] is the run being read, in
    reverse. *)
Fixpoint scan_digits (cur : jsstring) (s : jsstring) : list jsstring :=
  match s with
  | [] => match cur with [] => [] | _ :: _ => [rev cur] end
  | c :: t =>
      if isDigit c then scan_digits (c :: cur) t
      else match cur with
           | [] => scan_digits [] t
           | _ :: _ => rev cur :: scan_digits [] t
           end
  end.

Definition match_digits (s : jsstring) : option (list jsstring) :=
  match scan_digits [] s with
  | [] => None
  | runs => Some runs
  end.

(** [parseInt(s, 10)] on what the digit pattern can deliver: the leading
    digits are read in base ten; [NaN] (here [None]) when there is none.
    The numeric value is exact: the source's doubles round runs of more than
    fifteen digits, which stay far above every constant the result is
    compared with. *)
Definition digitVal (c : ascii) : Z := Z.of_nat (code c) - 48.

Fixpoint digits_value (acc : Z) (s : jsstring) : Z :=
  match s with
  | [] => acc
  | c :: t => if isDigit c then digits_value (10 * acc + digitVal c) t else acc
  end.

Definition parseInt (s : jsstring) : option Z :=
  match s with
  | [] => None
  | c :: _ => if isDigit c then Some (digits_value 0 s) else None
  end.

End JS.

Import JS.

(* ================================================================== *)
(** ** Record normaliser *)
(* ================================================================== *)

Open Scope Z_scope.

(** [normalizeCourse]: the emptiness test comes first, then
    [trim().toUpperCase().replace(/\s+/g, " ")]. *)
Definition normalizeCourse (course : jsstring) : jsstring :=
  if negb (truthy course) then str "UNKNOWN"
  else replace_spaces (toUpperCase (trim course)).

(** [normalizeBatchYear]: [None] is the source's [null]. *)
Definition normalizeBatchYear (batch : jsstring) : option Z :=
  if negb (truthy batch) then None
  else
    match match_digits batch with
    | None => None
    | Some [] => None
    | Some (n0 :: _) =>
        match parseInt n0 with
        | None => None
        | Some year =>
            let year :=
              if (0 <=? year) && (year <=? 99)
              then if year <=? 30 then 2000 + year else 1900 + year
              else year in
            if (year <? 1980) || (year >? 2030) then None else Some year
        end
    end.

(* ================================================================== *)
(** ** Attendee records, search and filters *)
(* ================================================================== *)

(** A document of the [attendees] table.  An optional field that is not set
    is [None]. *)
Record Attendee := mkAttendee {
  _id : nat;
  fullName : jsstring;
  course : jsstring;
  shift : option jsstring;
  batch : jsstring;
  contactNo : option jsstring;
  isPresent : bool;
  checkedInAt : option Z
}.

(** [value?.toLowerCase() || ""]. *)
Definition lower_or_empty (v : option jsstring) : jsstring :=
  match v with
  | Some s => toLowerCase s
  | None => []
  end.

(** [globalFilterFn] of the roster table. *)
Module Roster.

Definition globalFilterFn (row : Attendee) (filterValue : jsstring) : bool :=
  let search := toLowerCase filterValue in
  let fullName' := lower_or_empty (Some (fullName row)) in
  let contactNo' := lower_or_empty (contactNo row) in
  includes fullName' search || includes contactNo' search.

End Roster.

(** [globalFilterFn] of the print view. *)
Module PrintView.

Definition globalFilterFn (row : Attendee) (filterValue : jsstring) : bool :=
  let search := toLowerCase filterValue in
  let fullName' := lower_or_empty (Some (fullName row)) in
  let contactNo' := lower_or_empty (contactNo row) in
  includes fullName' search || includes contactNo' search.

End PrintView.

(** [value?.toLowerCase().includes(search)], read as a condition. *)
Definition opt_includes (v : option jsstring) (search : jsstring) : bool :=
  match v with
  | Some s => includes (toLowerCase s) search
  | None => false
  end.

Inductive ShowFilter := ShowAll | ShowPresent | ShowAbsent.

Definition matchesShow (showFilter : ShowFilter) (a : Attendee) : bool :=
  match showFilter with
  | ShowAll => true
  | ShowPresent => isPresent a
  | ShowAbsent => negb (isPresent a)
  end.

(** [filter === "all" || value === filter]. *)
Definition matchesExact (filter value : jsstring) : bool :=
  string_eqb filter (str "all") || string_eqb value filter.

Definition matchesExactOpt (filter : jsstring) (value : option jsstring) : bool :=
  string_eqb filter (str "all") ||
  match value with
  | Some v => string_eqb v filter
  | None => false
  end.

(** The search of the admin console ([filteredAttendees]). *)
Definition matchesSearch (searchTerm : jsstring) (a : Attendee) : bool :=
  let search := toLowerCase searchTerm in
  includes (toLowerCase (fullName a)) search ||
  includes (toLowerCase (course a)) search ||
  opt_includes (shift a) search ||
  includes (toLowerCase (batch a)) search ||
  opt_includes (contactNo a) search.

Definition filteredAttendees (attendees : list Attendee)
    (searchTerm courseFilter batchFilter : jsstring) (showFilter : ShowFilter)
  : list Attendee :=
  filter (fun a =>
            matchesSearch searchTerm a &&
            matchesExact courseFilter (course a) &&
            matchesExact batchFilter (batch a) &&
            matchesShow showFilter a)
         attendees.

(** [filteredData] of the print view. *)
Definition filteredData (attendees : list Attendee)
    (courseFilter batchFilter shiftFilter : jsstring) (showFilter : ShowFilter)
  : list Attendee :=
  filter (fun a =>
            matchesExact courseFilter (course a) &&
            matchesExact batchFilter (batch a) &&
            matchesExactOpt shiftFilter (shift a) &&
            matchesShow showFilter a)
         attendees.

(* ================================================================== *)
(** ** Sorting for the print view *)
(* ================================================================== *)

(** A sort key is a string or a number ([aVal], [bVal]). *)
Inductive SortKey :=
| KStr (s : jsstring)
| KNum (n : Z).

(** [a < b] on strings: by code units, a proper prefix first. *)
Fixpoint string_ltb (a b : jsstring) : bool :=
  match a, b with
  | _, [] => false
  | [], _ :: _ => true
  | x :: a', y :: b' =>
      (code x <? code y)%nat || ((code x =? code y)%nat && string_ltb a' b')
  end.

(** [aVal < bVal]; both keys of a comparison come from the same [case], so
    they have the same shape. *)
Definition key_ltb (a b : SortKey) : bool :=
  match a, b with
  | KStr x, KStr y => string_ltb x y
  | KNum x, KNum y => x <? y
  | _, _ => false
  end.

Definition or_empty (v : option jsstring) : jsstring :=
  match v with
  | Some s => s
  | None => []
  end.

(** The [switch (sortColumn)]. *)
Definition sortKey (sortColumn : jsstring) (a : Attendee) : SortKey :=
  if string_eqb sortColumn (str "fullName") then KStr (toLowerCase (fullName a))
  else if string_eqb sortColumn (str "course") then KStr (normalizeCourse (course a))
  else if string_eqb sortColumn (str "batch") then
    KNum (match normalizeBatchYear (batch a) with Some y => y | None => 9999 end)
  else if string_eqb sortColumn (str "shift") then
    KStr (toLowerCase (or_empty (shift a)))
  else if string_eqb sortColumn (str "contactNo") then KStr (or_empty (contactNo a))
  else if string_eqb sortColumn (str "isPresent") then
    KNum (if isPresent a then 1 else 0)
  else KStr (toLowerCase (fullName a)).

Inductive SortOrder := Asc | Desc.

(** The comparator handed to [data.sort]. *)
Definition compareFn (sortColumn : jsstring) (sortOrder : SortOrder)
    (a b : Attendee) : Z :=
  let aVal := sortKey sortColumn a in
  let bVal := sortKey sortColumn b in
  if key_ltb aVal bVal then match sortOrder with Asc => -1 | Desc => 1 end
  else if key_ltb bVal aVal then match sortOrder with Asc => 1 | Desc => -1 end
  else 0.

(** [Array.prototype.sort] with a comparator.  ECMAScript requires the sort
    to be stable, and for a consistent comparator the outcome is then the
    one ordered arrangement that keeps equal elements in their original
    order; insertion from the right computes it. *)
Fixpoint sort_insert {A} (cmp : A -> A -> Z) (x : A) (l : list A) : list A :=
  match l with
  | [] => [x]
  | y :: t => if cmp x y <=? 0 then x :: y :: t else y :: sort_insert cmp x t
  end.

Fixpoint Array_sort {A} (cmp : A -> A -> Z) (l : list A) : list A :=
  match l with
  | [] => []
  | x :: t => sort_insert cmp x (Array_sort cmp t)
  end.

Definition sortedDataForExport (filtered : list Attendee)
    (sortColumn : jsstring) (sortOrder : SortOrder) : list Attendee :=
  Array_sort (compareFn sortColumn sortOrder) filtered.

(* ================================================================== *)
(** ** The attendance store (convex/attendees.ts) *)
(* ================================================================== *)

(** The [attendees] table: its documents in creation order, and the source
    of fresh identifiers. *)
Record Store := mkStore {
  docs : list Attendee;
  nextId : nat
}.

Definition emptyStore : Store := mkStore [] 0.

Definition hasId (id : nat) (st : Store) : bool :=
  existsb (fun a => Nat.eqb (_id a) id) (docs st).

(** The fields both presence mutations write.  [checkedInAt: undefined] in a
    patch removes the field. *)
Definition setPresence (present : bool) (stamp : Z) (a : Attendee) : Attendee :=
  mkAttendee (_id a) (fullName a) (course a) (shift a) (batch a) (contactNo a)
             present (if present then Some stamp else None).

(** [ctx.db.patch(id, fields)]: throws ([None]) when no document has the
    identifier; a mutation that throws leaves the table as it was. *)
Definition db_patch (id : nat) (f : Attendee -> Attendee) (st : Store)
  : option Store :=
  if hasId id st
  then Some (mkStore (map (fun a => if Nat.eqb (_id a) id then f a else a) (docs st))
                     (nextId st))
  else None.

(** [ctx.db.insert("attendees", fields)]: the new document comes last and
    gets a fresh identifier, which is returned. *)
Definition db_insert (mk : nat -> Attendee) (st : Store) : Store * nat :=
  (mkStore (docs st ++ [mk (nextId st)]) (S (nextId st)), nextId st).

(** [ctx.db.delete(id)]. *)
Definition db_delete (id : nat) (st : Store) : option Store :=
  if hasId id st
  then Some (mkStore (filter (fun a => negb (Nat.eqb (_id a) id)) (docs st))
                     (nextId st))
  else None.

(** [markAttendance]; [now] is what [Date.now()] returns. *)
Definition markAttendance (id : nat) (present : bool) (now : Z) (st : Store)
  : option Store :=
  db_patch id (setPresence present now) st.

(** [markBulkAttendance]; [now k] is what [Date.now()] returns in the pass
    of the loop that is [k] passes after the first of [ids]. *)
Fixpoint markBulkAttendance (ids : list nat) (present : bool) (now : nat -> Z)
    (st : Store) : option Store :=
  match ids with
  | [] => Some st
  | id :: rest =>
      match db_patch id (setPresence present (now O)) st with
      | None => None
      | Some st' => markBulkAttendance rest present (fun k => now (S k)) st'
      end
  end.

(** The arguments of [addAttendee], and an element of [bulkImport]'s
    argument (there [newPresent] may be given). *)
Record NewAttendee := mkNew {
  newFullName : jsstring;
  newCourse : jsstring;
  newBatch : jsstring;
  newShift : option jsstring;
  newContactNo : option jsstring;
  newPresent : option bool
}.

(** [addAttendee]: the validator has no [isPresent] argument, so whatever
    [newPresent] holds plays no part. *)
Definition addAttendee (args : NewAttendee) (st : Store) : Store * nat :=
  db_insert (fun id =>
               mkAttendee id (newFullName args) (newCourse args) (newShift args)
                          (newBatch args) (newContactNo args) false None)
            st.

(** One pass of [bulkImport]'s loop: [isPresent ?? false] and
    [isPresent ? Date.now() : undefined]. *)
Definition importOne (attendee : NewAttendee) (now : Z) (st : Store)
  : Store * nat :=
  let present := newPresent attendee in
  db_insert (fun id =>
               mkAttendee id (newFullName attendee) (newCourse attendee)
                          (newShift attendee) (newBatch attendee)
                          (newContactNo attendee)
                          (match present with Some b => b | None => false end)
                          (match present with
                           | Some true => Some now
                           | _ => None
                           end))
            st.

Fixpoint bulkImport_loop (attendees : list NewAttendee) (now : nat -> Z)
    (ids : list nat) (st : Store) : Store * list nat :=
  match attendees with
  | [] => (st, ids)
  | a :: rest =>
      let (st', id) := importOne a (now O) st in
      bulkImport_loop rest (fun k => now (S k)) (ids ++ [id]) st'
  end.

(** [bulkImport] returns [{ imported: ids.length }]. *)
Definition bulkImport (attendees : list NewAttendee) (now : nat -> Z)
    (st : Store) : Store * nat :=
  let (st', ids) := bulkImport_loop attendees now [] st in
  (st', length ids).

Definition deleteAttendee (id : nat) (st : Store) : option Store :=
  db_delete id st.

Definition clearPresence (a : Attendee) : Attendee :=
  mkAttendee (_id a) (fullName a) (course a) (shift a) (batch a) (contactNo a)
             false None.

(** The loops of [clearAll] and [resetAttendance] run over the documents
    collected at the start. *)
Fixpoint clearAll_loop (all : list Attendee) (st : Store) : option Store :=
  match all with
  | [] => Some st
  | a :: rest =>
      match db_delete (_id a) st with
      | None => None
      | Some st' => clearAll_loop rest st'
      end
  end.

Definition clearAll (st : Store) : option (Store * nat) :=
  let all := docs st in
  match clearAll_loop all st with
  | None => None
  | Some st' => Some (st', length all)
  end.

Fixpoint resetAttendance_loop (all : list Attendee) (st : Store) : option Store :=
  match all with
  | [] => Some st
  | a :: rest =>
      match db_patch (_id a) clearPresence st with
      | None => None
      | Some st' => resetAttendance_loop rest st'
      end
  end.

Definition resetAttendance (st : Store) : option (Store * nat) :=
  let all := docs st in
  match resetAttendance_loop all st with
  | None => None
  | Some st' => Some (st', length all)
  end.

(** *** Statistics *)

(** A count as a JavaScript number (exact below 2^53; an array is shorter
    than 2^32). *)
Definition num_of_nat (n : nat) : float :=
  PrimFloat.of_uint63 (Uint63.of_Z (Z.of_nat n)).

(** [Math.round]: the nearest integer, a tie going up.  The argument
    [m * 2^e] is read exactly; [None] stands for a result that is not a
    finite number. *)
Definition Math_round (x : float) : option Z :=
  match Prim2SF x with
  | S754_zero _ => Some 0
  | S754_finite s m e =>
      let n := if s then Z.neg m else Z.pos m in
      Some (if 0 <=? e then n * 2 ^ e
            else (2 * n + 2 ^ (- e)) / 2 ^ (- e + 1))
  | S754_infinity _ => None
  | S754_nan => None
  end.

Record Stats := mkStats {
  total : nat;
  present : nat;
  absent : nat;
  percentage : option Z
}.

(** [getStats]: [(present / all.length) * 100] is evaluated in binary64, as
    the source does. *)
Definition getStats (st : Store) : Stats :=
  let all := docs st in
  let present := length (filter isPresent all) in
  let absent := (length all - present)%nat in
  mkStats (length all) present absent
          (if (0 <? length all)%nat
           then Math_round (PrimFloat.mul
                              (PrimFloat.div (num_of_nat present)
                                             (num_of_nat (length all)))
                              (num_of_nat 100))
           else Some 0).

(* ================================================================== *)
(** ** CSV codec (admin console) *)
(* ================================================================== *)

Definition comma : ascii := ","%char.
Definition newline : ascii := "010"%char.

(** [headers.findIndex(p)]; [None] is the source's [-1]. *)
Fixpoint findIndex_from {A} (p : A -> bool) (i : nat) (l : list A) : option nat :=
  match l with
  | [] => None
  | x :: t => if p x then Some i else findIndex_from p (S i) t
  end.

Definition findIndex {A} (p : A -> bool) (l : list A) : option nat :=
  findIndex_from p O l.

(** The header tests, shared by both revisions of [parseCSV]. *)
Definition isNameHeader (h : jsstring) : bool := includes h (str "name").
Definition isCourseHeader (h : jsstring) : bool :=
  includes h (str "course") || includes h (str "program").
Definition isBatchHeader (h : jsstring) : bool :=
  includes h (str "batch") || includes h (str "year").
Definition isShiftHeader (h : jsstring) : bool := includes h (str "shift").
Definition isContactHeader (h : jsstring) : bool :=
  includes h (str "contact") || includes h (str "phone") || includes h (str "mobile").
Definition isPresentHeader (h : jsstring) : bool :=
  includes h (str "present") || includes h (str "attendance") ||
  includes h (str "status").

Definition missingColumns : jsstring :=
  str "CSV must have 'name', 'course', and 'batch' columns".

(** What a call of [parseCSV] does: the messages it shows with [alert], and
    the records it returns. *)
Record Parsed := mkParsed {
  alerts : list jsstring;
  records : list NewAttendee
}.

(** A cell read in a condition or with [|| ""]: missing and empty agree. *)
Definition cell_truthy (c : option jsstring) : bool :=
  match c with
  | Some s => truthy s
  | None => false
  end.

(** *** First revision: lines and cells by [split] *)

Module SplitCSV.

Definition headersOf (line : jsstring) : list jsstring :=
  map (fun h => toLowerCase (trim h)) (split comma line).

(** One pass of the [for] loop over the data lines. *)
Definition parseLine (nameIdx courseIdx batchIdx : nat)
    (shiftIdx contactIdx : option nat) (line : jsstring)
    (data : list NewAttendee) : list NewAttendee :=
  let cols := map trim (split comma line) in
  if cell_truthy (nth_error cols nameIdx)
  then data ++
       [mkNew (or_empty (nth_error cols nameIdx))
              (or_empty (nth_error cols courseIdx))
              (or_empty (nth_error cols batchIdx))
              (match shiftIdx with Some i => nth_error cols i | None => None end)
              (match contactIdx with Some i => nth_error cols i | None => None end)
              None]
  else data.

Fixpoint parseLines (nameIdx courseIdx batchIdx : nat)
    (shiftIdx contactIdx : option nat) (lines : list jsstring)
    (data : list NewAttendee) : list NewAttendee :=
  match lines with
  | [] => data
  | line :: rest =>
      parseLines nameIdx courseIdx batchIdx shiftIdx contactIdx rest
                 (parseLine nameIdx courseIdx batchIdx shiftIdx contactIdx line data)
  end.

Definition parseCSV (text : jsstring) : Parsed :=
  let lines := split newline (trim text) in
  match lines with
  | [] => mkParsed [] []
  | [_] => mkParsed [] []
  | header :: rows =>
      let headers := headersOf header in
      let nameIdx := findIndex isNameHeader headers in
      let courseIdx := findIndex isCourseHeader headers in
      let batchIdx := findIndex isBatchHeader headers in
      let shiftIdx := findIndex isShiftHeader headers in
      let contactIdx := findIndex isContactHeader headers in
      match nameIdx, courseIdx, batchIdx with
      | Some n, Some c, Some b =>
          mkParsed [] (parseLines n c b shiftIdx contactIdx rows [])
      | _, _, _ => mkParsed [missingColumns] []
      end
  end.

End SplitCSV.

(** *** Second revision: rows from the Papa Parse library *)

Module PapaCSV.

(** A row object of [result.data]: its keys, in the order of [Object.keys],
    with their values. *)
Definition Row := list (jsstring * jsstring).

(** What [Papa.parse(text, {header: true, skipEmptyLines: true,
    transformHeader})] returned: the messages of [result.errors], and
    [result.data].  The library is not part of the repository; the code
    after the call is modelled for every value it can return. *)
Record ParseResult := mkResult {
  errors : list jsstring;
  data : list Row
}.

Definition keys (row : Row) : list jsstring := map fst row.

(** [row[key]]; [None] is [undefined]. *)
Fixpoint get (row : Row) (key : jsstring) : option jsstring :=
  match row with
  | [] => None
  | (k, v) :: rest => if string_eqb k key then Some v else get rest key
  end.

Definition parsePresentValue (value : option jsstring) : option bool :=
  match value with
  | None => None
  | Some v =>
      if negb (truthy v) then None
      else
        let lower := trim (toLowerCase v) in
        if string_eqb lower (str "true") || string_eqb lower (str "yes") ||
           string_eqb lower (str "1") || string_eqb lower (str "present")
        then Some true
        else if string_eqb lower (str "false") || string_eqb lower (str "no") ||
                string_eqb lower (str "0") || string_eqb lower (str "absent")
        then Some false
        else None
  end.

(** One pass of the [for] loop over the rows. *)
Definition parseRow (nameKey courseKey batchKey : jsstring)
    (shiftKey contactKey presentKey : option jsstring) (row : Row)
    (parsedData : list NewAttendee) : list NewAttendee :=
  if cell_truthy (get row nameKey)
  then parsedData ++
       [mkNew (or_empty (get row nameKey))
              (or_empty (get row courseKey))
              (or_empty (get row batchKey))
              (match shiftKey with Some k => get row k | None => None end)
              (match contactKey with Some k => get row k | None => None end)
              (match presentKey with
               | Some k => parsePresentValue (get row k)
               | None => None
               end)]
  else parsedData.

Fixpoint parseRows (nameKey courseKey batchKey : jsstring)
    (shiftKey contactKey presentKey : option jsstring) (rows : list Row)
    (parsedData : list NewAttendee) : list NewAttendee :=
  match rows with
  | [] => parsedData
  | row :: rest =>
      parseRows nameKey courseKey batchKey shiftKey contactKey presentKey rest
                (parseRow nameKey courseKey batchKey shiftKey contactKey
                          presentKey row parsedData)
  end.

(** [parseCSV] from the line after the call of the library on. *)
Definition parseCSV_of (result : ParseResult) : Parsed :=
  match errors result with
  | e :: _ => mkParsed [str "CSV parsing error: " ++ e] []
  | [] =>
      match data result with
      | [] => mkParsed [] []
      | first :: _ =>
          let headers := keys first in
          let nameKey := find isNameHeader headers in
          let courseKey := find isCourseHeader headers in
          let batchKey := find isBatchHeader headers in
          let shiftKey := find isShiftHeader headers in
          let contactKey := find isContactHeader headers in
          let presentKey := find isPresentHeader headers in
          match nameKey, courseKey, batchKey with
          | Some n, Some c, Some b =>
              if truthy n && truthy c && truthy b
              then mkParsed [] (parseRows n c b shiftKey contactKey presentKey
                                          (data result) [])
              else mkParsed [missingColumns] []
          | _, _, _ => mkParsed [missingColumns] []
          end
      end
  end.

Definition parseCSV (Papa_parse : jsstring -> ParseResult) (text : jsstring)
  : Parsed :=
  parseCSV_of (Papa_parse text).

End PapaCSV.

(** *** Export *)

Definition exportHeaders : list jsstring :=
  [str "Full Name"; str "Course"; str "Shift"; str "Batch"; str "Contact No.";
   str "Present"; str "Checked In At"].

(** One element of [rows].  [join] writes an element that is [undefined] as
    the empty string; [toLocaleString] renders a time in the locale of the
    browser. *)
Definition exportRow (toLocaleString : Z -> jsstring) (a : Attendee)
  : list jsstring :=
  [fullName a; course a; or_empty (shift a); batch a; or_empty (contactNo a);
   if isPresent a then str "Yes" else str "No";
   match checkedInAt a with
   | Some t => if t =? 0 then [] else toLocaleString t
   | None => []
   end].

(** [exportCSV]: the message shown ([inl]) or the text offered for download
    ([inr]). *)
Definition exportCSV (toLocaleString : Z -> jsstring) (attendees : list Attendee)
  : jsstring + jsstring :=
  match attendees with
  | [] => inl (str "No data to export")
  | _ :: _ =>
      let rows := map (exportRow toLocaleString) attendees in
      inr (join [newline]
                (join [comma] exportHeaders :: map (join [comma]) rows))
  end.

(* ================================================================== *)
(** ** Reference definitions and sample data *)
(* ================================================================== *)

(** The first maximal run of digits of a string, if it has a digit: skip
    what is not a digit, then take digits while they last. *)
Fixpoint takeDigits (s : jsstring) : jsstring :=
  match s with
  | [] => []
  | c :: t => if isDigit c then c :: takeDigits t else []
  end.

Fixpoint firstDigitRun (s : jsstring) : option jsstring :=
  match s with
  | [] => None
  | c :: t => if isDigit c then Some (takeDigits s) else firstDigitRun t
  end.

(** [ds] is a maximal run of digits of [s] with no digit before it. *)
Definition is_first_run (s ds : jsstring) : Prop :=
  exists pre post,
    s = pre ++ ds ++ post /\
    Forall (fun c => isDigit c = false) pre /\
    Forall (fun c => isDigit c = true) ds /\
    ds <> [] /\
    (forall c r, post = c :: r -> isDigit c = false).

(** The number a run of digits denotes in base ten. *)
Definition decimal (ds : jsstring) : Z :=
  fold_left (fun acc c => 10 * acc + digitVal c) ds 0.

(** The acceptance window of batch years. *)
Definition in_window (year : Z) : option Z :=
  if (1980 <=? year) && (year <=? 2030) then Some year else None.

(** The two-digit rule: 0..30 are years of the 2000s, 31..99 of the 1900s. *)
Definition two_digit_year (v : Z) : Z :=
  if v <=? 30 then 2000 + v else 1900 + v.

(** Batch-year normalisation as the specification words it: the two-digit
    rule applies to a run of one or two digits, a longer run is taken as
    it stands. *)
Definition spec_normalizeBatchYear (s : jsstring) : option Z :=
  match firstDigitRun s with
  | None => None
  | Some ds =>
      let v := decimal ds in
      in_window (if (length ds <=? 2)%nat then two_digit_year v else v)
  end.

(** A string made of white space only (the empty string included). *)
Definition isBlank (s : jsstring) : bool := forallb isSpace s.

(** The first code unit, if any, is not white space. *)
Definition head_ok (s : jsstring) : Prop :=
  match s with
  | [] => True
  | c :: _ => isSpace c = false
  end.

(** Trim, upper-case, collapse: the canonical form without the sentinel. *)
Definition canonical (x : jsstring) : jsstring :=
  replace_spaces (toUpperCase (trim x)).

(** [needle] occurs in [hay]. *)
Definition substring_of (needle hay : jsstring) : Prop :=
  exists pre post, hay = pre ++ needle ++ post.

(** [q] occurs in [t] when case is ignored. *)
Definition ci_substring (q t : jsstring) : Prop :=
  substring_of (toLowerCase q) (toLowerCase t).

(** The pairing of the data model: [checkedInAt] is set exactly when
    [isPresent] is true. *)
Definition paired (a : Attendee) : Prop :=
  checkedInAt a <> None <-> isPresent a = true.

(** One mutation of the store, run to completion. *)
Inductive step : Store -> Store -> Prop :=
| step_markAttendance id p now st st' :
    markAttendance id p now st = Some st' -> step st st'
| step_markBulkAttendance ids p now st st' :
    markBulkAttendance ids p now st = Some st' -> step st st'
| step_addAttendee args st :
    step st (fst (addAttendee args st))
| step_bulkImport attendees now st :
    step st (fst (bulkImport attendees now st))
| step_deleteAttendee id st st' :
    deleteAttendee id st = Some st' -> step st st'
| step_clearAll st st' n :
    clearAll st = Some (st', n) -> step st st'
| step_resetAttendance st st' n :
    resetAttendance st = Some (st', n) -> step st st'.

(** The stores the mutations can produce from the empty table. *)
Inductive reachable : Store -> Prop :=
| reachable_empty : reachable emptyStore
| reachable_step st st' : reachable st -> step st st' -> reachable st'.

(** What [bulkImport] promises of the document [d] made from the element
    [a] of its argument. *)
Definition imported_as (a : NewAttendee) (d : Attendee) : Prop :=
  fullName d = newFullName a /\ course d = newCourse a /\
  batch d = newBatch a /\
  isPresent d = match newPresent a with Some b => b | None => false end /\
  (checkedInAt d <> None <-> newPresent a = Some true).

(** The number of records marked present. *)
Fixpoint countPresent (l : list Attendee) : nat :=
  match l with
  | [] => O
  | a :: t => if isPresent a then S (countPresent t) else countPresent t
  end.









(** The record of the search example: course "BCA", name and contact
    number without "bca". *)
Definition asha : Attendee :=
  mkAttendee 0 (str "Asha Rao") (str "BCA") None (str "2016")
             (Some (str "9800000000")) false None.

(** A table of [n] documents of which the first [p] are present. *)
Definition sampleDoc (present : bool) (id : nat) : Attendee :=
  mkAttendee id (str "A") (str "BCA") None (str "2016") None present
             (if present then Some 1 else None).

Definition sampleStore (p n : nat) : Store :=
  mkStore (map (sampleDoc true) (seq 0 p) ++ map (sampleDoc false) (seq p (n - p)))
          n.

(** The year a record is sorted by in the batch column. *)
Definition batchKey (a : Attendee) : Z :=
  match normalizeBatchYear (batch a) with
  | Some y => y
  | None => 9999
  end.

Definition parseable (a : Attendee) : Prop := normalizeBatchYear (batch a) <> None.

(** The three records of the sorting scenario. *)
Definition r2016 : Attendee :=
  mkAttendee 1 (str "Ravi") (str "BCA") None (str "2016") None false None.
Definition r16 : Attendee :=
  mkAttendee 2 (str "Sita") (str "BCA") None (str "16") None false None.
Definition rBatch1999 : Attendee :=
  mkAttendee 3 (str "Tara") (str "BCA") None (str "Batch 1999") None false None.
Definition rNoYear : Attendee :=
  mkAttendee 4 (str "Uma") (str "BCA") None (str "evening") None false None.

(** Each of the three required roles finds a header: one containing "name",
    one containing "course" or "program", one containing "batch" or "year". *)
Definition resolves (headers : list jsstring) : bool :=
  existsb isNameHeader headers && existsb isCourseHeader headers &&
  existsb isBatchHeader headers.

(** Several lines as one text. *)
Definition text_of (lines : list string) : jsstring :=
  join [newline] (map str lines).

(** First revision: the cells of a data line, whether its name cell holds
    something, and the record a line with a name gives. *)
Definition cells (line : jsstring) : list jsstring := map trim (split comma line).

Definition lineHasName (n : nat) (line : jsstring) : bool :=
  cell_truthy (nth_error (cells line) n).

Definition lineRecord (n c b : nat) (s ct : option nat) (line : jsstring)
  : NewAttendee :=
  mkNew (or_empty (nth_error (cells line) n))
        (or_empty (nth_error (cells line) c))
        (or_empty (nth_error (cells line) b))
        (match s with Some i => nth_error (cells line) i | None => None end)
        (match ct with Some i => nth_error (cells line) i | None => None end)
        None.

(** Second revision: the same for a row object. *)
Definition rowHasName (n : jsstring) (row : PapaCSV.Row) : bool :=
  cell_truthy (PapaCSV.get row n).

Definition rowRecord (n c b : jsstring) (s ct p : option jsstring)
    (row : PapaCSV.Row) : NewAttendee :=
  mkNew (or_empty (PapaCSV.get row n))
        (or_empty (PapaCSV.get row c))
        (or_empty (PapaCSV.get row b))
        (match s with Some k => PapaCSV.get row k | None => None end)
        (match ct with Some k => PapaCSV.get row k | None => None end)
        (match p with Some k => PapaCSV.parsePresentValue (PapaCSV.get row k)
                    | None => None end).




(** The five fields the round trip is about; a field that is not set counts
    as the empty string. *)
Definition Tuple : Type := jsstring * jsstring * jsstring * jsstring * jsstring.

Definition tupleOfAttendee (a : Attendee) : Tuple :=
  (fullName a, course a, batch a, or_empty (shift a), or_empty (contactNo a)).

Definition tupleOfRecord (r : NewAttendee) : Tuple :=
  (newFullName r, newCourse r, newBatch r, or_empty (newShift r),
   or_empty (newContactNo r)).

(** Export, then import with the first revision of [parseCSV]. *)
Definition roundTrip (toLocaleString : Z -> jsstring) (attendees : list Attendee)
  : list Tuple :=
  match exportCSV toLocaleString attendees with
  | inr csv => map tupleOfRecord (records (SplitCSV.parseCSV csv))
  | inl _ => []
  end.

(** [s] holds no [sep]. *)
Definition lacks (sep : ascii) (s : jsstring) : Prop :=
  Forall (fun c => ascii_eqb c sep = false) s.

(** A field the export writes and the import reads back unchanged: no
    comma, no line break, no white space at either end. *)
Definition plain (f : jsstring) : Prop :=
  lacks comma f /\ lacks newline f /\ head_ok f /\ head_ok (rev f).

Definition exportable (a : Attendee) : Prop :=
  fullName a <> [] /\ plain (fullName a) /\ plain (course a) /\
  plain (batch a) /\ plain (or_empty (shift a)) /\
  plain (or_empty (contactNo a)).

(** A rendering of times without line breaks. *)
Definition plain_time (toLocaleString : Z -> jsstring) : Prop :=
  forall t, lacks newline (toLocaleString t).

(** The lines of the exported text: the header line, and the line of a
    record whose last cell is [ts]. *)
Definition headerLine : jsstring := join [comma] exportHeaders.

Definition rowText (row : Attendee * jsstring) : jsstring :=
  let (a, ts) := row in
  join [comma]
       [fullName a; course a; or_empty (shift a); batch a; or_empty (contactNo a);
        if isPresent a then str "Yes" else str "No"; ts].

(** The last cell of the exported row of a record. *)
Definition stamp (toLocaleString : Z -> jsstring) (a : Attendee) : jsstring :=
  match checkedInAt a with
  | Some t => if t =? 0 then [] else toLocaleString t
  | None => []
  end.

(** *** The second revision and the library

    [Papa.parse] is not part of the repository.  What the round trip
    through the second revision of [parseCSV] needs of it is stated as an
    assumption on the function called, for texts on which the library has
    nothing to decide: no quote, no carriage return, none of the other
    delimiters it tries. *)

(** The header function handed to the library:
    [header.trim().toLowerCase()]. *)
Definition transformHeader (header : jsstring) : jsstring :=
  toLowerCase (trim header).

Definition exportKeys : list jsstring := map transformHeader exportHeaders.

(** The row object of a line: its cells under the names of the header. *)
Definition objectOf (line : jsstring) : PapaCSV.Row :=
  combine exportKeys (split comma line).

(** The quote, the line breaks LF and CR, and the delimiters the library
    tries besides the comma: TAB, "|", ";", RS and US. *)
Definition special (c : ascii) : bool :=
  existsb (Nat.eqb (code c)) [34; 10; 13; 9; 124; 59; 30; 31]%nat.

Definition bare (s : jsstring) : Prop := Forall (fun c => special c = false) s.

(** The assumption.  For a text made of the header line of the export and
    of lines that are bare and not empty: when every line has seven cells
    the library reports no error and delivers the row objects of the lines
    in order; when some line has another number of cells it reports an
    error. *)
Definition Papa_plain (Papa_parse : jsstring -> PapaCSV.ParseResult) : Prop :=
  forall rows : list jsstring,
    Forall bare rows -> Forall (fun r => r <> []) rows ->
    (Forall (fun r => length (split comma r) = 7%nat) rows ->
     Papa_parse (join [newline] (headerLine :: rows)) =
     PapaCSV.mkResult [] (map objectOf rows)) /\
    (Exists (fun r => length (split comma r) <> 7%nat) rows ->
     PapaCSV.errors (Papa_parse (join [newline] (headerLine :: rows))) <> []).

(** A parser that meets the assumption: lines split at LF, empty lines
    skipped, cells split at commas, a line with another number of cells
    than the header reported. *)
Definition plainParse (text : jsstring) : PapaCSV.ParseResult :=
  match split newline text with
  | [] => PapaCSV.mkResult [] []
  | header :: lines =>
      let names := map transformHeader (split comma header) in
      let rows := filter truthy lines in
      if forallb (fun r => Nat.eqb (length (split comma r)) (length names)) rows
      then PapaCSV.mkResult [] (map (fun r => combine names (split comma r)) rows)
      else PapaCSV.mkResult [str "FieldMismatch"] []
  end.

(** A record whose fields are bare, with a name; a rendering of times that
    is bare. *)
Definition bare_record (a : Attendee) : Prop :=
  fullName a <> [] /\ bare (fullName a) /\ bare (course a) /\
  bare (batch a) /\ bare (or_empty (shift a)) /\
  bare (or_empty (contactNo a)).

Definition bare_time (toLocaleString : Z -> jsstring) : Prop :=
  forall t, bare (toLocaleString t).

(** The number of [sep] in [s]. *)
Definition occurrences (sep : ascii) (s : jsstring) : nat :=
  length (filter (fun c => ascii_eqb c sep) s).

(** The commas in the fields of the exported row of a record, those the
    export puts between the cells not counted. *)
Definition commasIn (toLocaleString : Z -> jsstring) (a : Attendee) : nat :=
  occurrences comma (fullName a) + occurrences comma (course a) +
  occurrences comma (or_empty (shift a)) + occurrences comma (batch a) +
  occurrences comma (or_empty (contactNo a)) +
  occurrences comma (stamp toLocaleString a).

(** What the second revision makes of the row of a record. *)
Definition reimported (a : Attendee) : NewAttendee :=
  mkNew (fullName a) (course a) (batch a) (Some (or_empty (shift a)))
        (Some (or_empty (contactNo a))) (Some (isPresent a)).

(** Sample data of the round trip. *)
Definition sampleLocale (t : Z) : jsstring := str "1/2/2026, 3:04:05 PM".

Definition doeJohn : Attendee :=
  mkAttendee 5 (str "Doe, John") (str "BCA") (Some (str "Morning")) (str "2016")
             (Some (str "98")) false None.

Definition annPadded : Attendee :=
  mkAttendee 7 (str "Ann ") (str "BCA") None (str "2016") None false None.

Definition meera : Attendee :=
  mkAttendee 6 (str "Meera Nair") (str "B.Sc CS") None (str "2016-2020")
             (Some (str "9811122233")) true (Some 1767323045000).

(** A store with one record, for the presence scenario. *)
Definition oneRecord : Store :=
  fst (addAttendee (mkNew (str "Ravi") (str "BCA") (str "2016") None None None)
                   emptyStore).

(* ================================================================== *)
(** ** Further functions of the store, the admin console and the views *)
(* ================================================================== *)

From Stdlib Require Import DecimalString.

(** *** Queries of convex/attendees.ts *)

(** [getAll]: the documents in creation order. *)
Definition getAll (st : Store) : list Attendee := docs st.

(** The arguments of [getFiltered]; an argument that is not passed is
    [None]. *)
Record FilterArgs := mkArgs {
  argCourse : option jsstring;
  argBatch : option jsstring;
  argShift : option jsstring;
  argPresentOnly : option bool
}.

Definition bool_truthy (v : option bool) : bool :=
  match v with
  | Some b => b
  | None => false
  end.

Definition shiftIs (s : jsstring) (a : Attendee) : bool :=
  match shift a with
  | Some v => string_eqb v s
  | None => false
  end.

(** [getFiltered]: one of the three indexes or the whole table, then the
    shift and the presence filters.  An index range with every field fixed
    is read in creation order. *)
Definition getFiltered (args : FilterArgs) (st : Store) : list Attendee :=
  let c := or_empty (argCourse args) in
  let b := or_empty (argBatch args) in
  let results :=
    if cell_truthy (argCourse args) && cell_truthy (argBatch args)
    then filter (fun a => string_eqb (course a) c && string_eqb (batch a) b)
                (docs st)
    else if cell_truthy (argCourse args)
    then filter (fun a => string_eqb (course a) c) (docs st)
    else if cell_truthy (argBatch args)
    then filter (fun a => string_eqb (batch a) b) (docs st)
    else docs st in
  let results :=
    if cell_truthy (argShift args)
    then filter (shiftIs (or_empty (argShift args))) results
    else results in
  if bool_truthy (argPresentOnly args)
  then filter isPresent results
  else results.

(** [new Set(values)] spread into an array: the distinct values, each at
    the place of its first occurrence. *)
Fixpoint Set_from (seen values : list jsstring) : list jsstring :=
  match values with
  | [] => seen
  | v :: rest =>
      if existsb (string_eqb v) seen then Set_from seen rest
      else Set_from (seen ++ [v]) rest
  end.

(** The comparison of [sort()] without a comparator: strings by code
    units. *)
Definition defaultCompare (a b : jsstring) : Z :=
  if string_ltb a b then -1 else if string_ltb b a then 1 else 0.

Definition distinctSorted (values : list jsstring) : list jsstring :=
  Array_sort defaultCompare (Set_from [] values).

Definition getCourses (st : Store) : list jsstring :=
  distinctSorted (map course (docs st)).

Definition getBatches (st : Store) : list jsstring :=
  distinctSorted (map batch (docs st)).

(** [getShifts] drops the documents without a shift first. *)
Definition definedShifts (all : list Attendee) : list jsstring :=
  flat_map (fun a => match shift a with Some s => [s] | None => [] end) all.

Definition getShifts (st : Store) : list jsstring :=
  distinctSorted (definedShifts (docs st)).

(** *** The roster (AttendanceTable.tsx) *)

(** [filteredData] of the roster: as in the print view, without a shift
    filter. *)
Definition Roster_filteredData (attendees : list Attendee)
    (courseFilter batchFilter : jsstring) (showFilter : ShowFilter)
  : list Attendee :=
  filter (fun a =>
            matchesExact courseFilter (course a) &&
            matchesExact batchFilter (batch a) &&
            matchesShow showFilter a)
         attendees.

(** The state of the "add attendee" form. *)
Record Form := mkForm {
  formFullName : jsstring;
  formCourse : jsstring;
  formShift : jsstring;
  formBatch : jsstring;
  formContactNo : jsstring
}.

Definition emptyForm : Form := mkForm [] [] [] [] [].

(** [value || undefined]. *)
Definition or_undefined (v : jsstring) : option jsstring :=
  if truthy v then Some v else None.

(** How a mutation called from the browser ends: it is run and its result
    arrives, or the promise is rejected with an error, whose message is
    given.  A mutation is a transaction: a rejected one has written
    nothing. *)
Inductive Call : Type :=
| Delivered
| Rejected (message : jsstring).

(** The state of the "add attendee" dialog. *)
Record AddDialog := mkDialog {
  newAttendee : Form;
  isAddDialogOpen : bool;
  isAdding : bool
}.

(** [handleAddAttendee]: the messages shown, the table and the dialog
    afterwards.  The [try] block runs to its end when the call is
    delivered; the [catch] block runs when it is rejected; [finally] ends
    both. *)
Definition handleAddAttendee (call : Call) (ui : AddDialog) (st : Store)
  : list jsstring * Store * AddDialog :=
  let form := newAttendee ui in
  if negb (truthy (formFullName form)) ||
     negb (truthy (formCourse form)) ||
     negb (truthy (formBatch form))
  then ([str "Please fill in name, course, and batch fields."], st, ui)
  else
    match call with
    | Delivered =>
        let (st', _) :=
          addAttendee (mkNew (formFullName form) (formCourse form)
                             (formBatch form)
                             (or_undefined (formShift form))
                             (or_undefined (formContactNo form))
                             None)
                      st in
        ([], st', mkDialog emptyForm false false)
    | Rejected message =>
        ([str "Error adding attendee: " ++ message], st,
         mkDialog form (isAddDialogOpen ui) false)
    end.

(** *** The admin console (CSVImport.tsx) *)

(** The object [courseWiseCount]: its keys with their counts. *)
Definition Counts := list (jsstring * nat).

(** [acc[key] = (acc[key] || 0) + 1].  Every key is a result of
    [normalizeCourse], which holds no lower-case letter, so none is a name
    the empty object inherits.  The keys are kept in the order they were
    first written; JavaScript lists keys that are array indices first,
    which the sum over the values does not see. *)
Fixpoint bump (key : jsstring) (acc : Counts) : Counts :=
  match acc with
  | [] => [(key, 1%nat)]
  | (k, n) :: rest =>
      if string_eqb k key then (k, S n) :: rest else (k, n) :: bump key rest
  end.

Definition courseWiseCount (attendees : list Attendee) : Counts :=
  fold_left (fun acc attendee => bump (normalizeCourse (course attendee)) acc)
            (filter isPresent attendees) [].

(** [Object.values(courseWiseCount).reduce((sum, count) => sum + count, 0)]. *)
Definition totalPresentFromCourses (counts : Counts) : nat :=
  fold_left (fun sum count => (sum + count)%nat) (map snd counts) O.

(** [acc[key]], [0] when the key is missing. *)
Fixpoint countOf (key : jsstring) (acc : Counts) : nat :=
  match acc with
  | [] => O
  | (k, n) :: rest => if string_eqb k key then n else countOf key rest
  end.

(** [oldestBatch]: the [reduce] over the attendees, from [null]. *)
Definition oldestStep (oldest : option Z) (attendee : Attendee) : option Z :=
  match normalizeBatchYear (batch attendee) with
  | Some batchYear =>
      match oldest with
      | None => Some batchYear
      | Some o => if batchYear <? o then Some batchYear else oldest
      end
  | None => oldest
  end.

Definition oldestBatch (attendees : list Attendee) : option Z :=
  fold_left oldestStep attendees None.

(** [n.toString()] for an integer: its decimal digits, with a sign when it
    is negative. *)
Definition Number_toString (n : Z) : jsstring :=
  list_ascii_of_string (NilZero.string_of_int (Z.to_int n)).

(** The state of the import panel. *)
Record ImportPanel := mkPanel {
  csvData : jsstring;
  preview : list NewAttendee;
  importing : bool
}.

(** [handleFileUpload] (first revision): nothing happens without a file;
    otherwise its text, once read, is kept and parsed into the preview.
    The messages are those [parseCSV] shows. *)
Definition handleFileUpload (file : option jsstring) (ui : ImportPanel)
  : list jsstring * ImportPanel :=
  match file with
  | None => ([], ui)
  | Some text =>
      let parsed := SplitCSV.parseCSV text in
      (alerts parsed, mkPanel text (records parsed) (importing ui))
  end.

(** [handleImport]: nothing happens on an empty preview; otherwise the
    preview goes to [bulkImport].  When the call is delivered its count is
    reported and the panel is cleared; when it is rejected the error is
    reported and the panel keeps its text and preview. *)
Definition handleImport (call : Call) (now : nat -> Z) (ui : ImportPanel)
    (st : Store) : list jsstring * Store * ImportPanel :=
  match preview ui with
  | [] => ([], st, ui)
  | _ :: _ =>
      match call with
      | Delivered =>
          let (st', imported) := bulkImport (preview ui) now st in
          ([str "Successfully imported " ++
            Number_toString (Z.of_nat imported) ++ str " attendees!"],
           st', mkPanel [] [] false)
      | Rejected message =>
          ([str "Error importing: " ++ message], st,
           mkPanel (csvData ui) (preview ui) false)
      end
  end.

(** A file uploaded and then imported: the messages of both steps. *)
Definition uploadAndImport (text : jsstring) (call : Call) (now : nat -> Z)
    (ui : ImportPanel) (st : Store) : list jsstring * Store * ImportPanel :=
  let (shown, ui1) := handleFileUpload (Some text) ui in
  let '(shown', st', ui2) := handleImport call now ui1 st in
  (shown ++ shown', st', ui2).

(** *** The print view *)

(** [formatBatchYear]: [year ? year.toString() : batch]. *)
Definition formatBatchYear (batch : jsstring) : jsstring :=
  match normalizeBatchYear batch with
  | Some year => if year =? 0 then batch else Number_toString year
  | None => batch
  end.

(** The summary line of the printed document: total, present, absent. *)
Definition printCounts (dataToExport : list Attendee) : nat * nat * nat :=
  (length dataToExport,
   length (filter isPresent dataToExport),
   length (filter (fun a => negb (isPresent a)) dataToExport)).

(** [dataToExport] of [handleExportPDF]: the sorted records, narrowed to the
    selected rows when there are any. *)
Definition dataToExport (sorted : list Attendee) (selectedIds : list nat)
  : list Attendee :=
  match selectedIds with
  | [] => sorted
  | _ :: _ => filter (fun a => existsb (fun id => Nat.eqb id (_id a)) selectedIds)
                     sorted
  end.

(** *** Notions the further properties are stated with *)

(** The identifiers of a table are pairwise distinct and were all handed
    out already. *)
Definition ids_ok (st : Store) : Prop :=
  NoDup (map _id (docs st)) /\
  Forall (fun a => (_id a < nextId st)%nat) (docs st).

(** Two documents that differ in presence and check-in time at most. *)
Definition same_person (a a' : Attendee) : Prop :=
  _id a' = _id a /\ fullName a' = fullName a /\ course a' = course a /\
  shift a' = shift a /\ batch a' = batch a /\ contactNo a' = contactNo a.

(** [a <= b] for strings by code units. *)
Definition string_leb (a b : jsstring) : bool := negb (string_ltb b a).

(** The record [a] has a smaller key than [b] in a column. *)
Definition lt_key (sortColumn : jsstring) (a b : Attendee) : bool :=
  key_ltb (sortKey sortColumn a) (sortKey sortColumn b).

(** The filter an argument of [getFiltered] stands for in the views. *)
Definition asFilter (v : option jsstring) : jsstring :=
  if cell_truthy v then or_empty v else str "all".

(** The number of present records with a given course key. *)
Definition presentWithKey (key : jsstring) (l : list Attendee) : nat :=
  length (filter (fun a => isPresent a && string_eqb (normalizeCourse (course a)) key) l).

(** A two-record table reached by an import. *)
Definition twoRecords : Store :=
  fst (bulkImport [mkNew (str "Ravi") (str "BCA") (str "2016") None None (Some true);
                   mkNew (str "Sita") (str "MCA") (str "17") (Some (str "Morning"))
                         None None]
                  (fun _ => 1767323045000) emptyStore).

(** What [parsePresentValue] decides on: the cell in lower case, trimmed. *)
Definition presenceWord (v : jsstring) : jsstring := trim (toLowerCase v).

Definition presentWords : list jsstring :=
  [str "true"; str "yes"; str "1"; str "present"].

Definition absentWords : list jsstring :=
  [str "false"; str "no"; str "0"; str "absent"].

(** A dialog with the three required fields filled in. *)
Definition sampleDialog : AddDialog :=
  mkDialog (mkForm (str "Ravi") (str "BCA") [] (str "2016") (str "98"))
           true false.

(** A panel before any upload. *)
Definition emptyPanel : ImportPanel := mkPanel [] [] false.

(* ================================================================== *)
(** ** Batch-year normalisation *)
(* ================================================================== *)

Section BatchYear.

Lemma takeDigits_split (s : jsstring) :
  exists post,
    s = takeDigits s ++ post /\
    Forall (fun c => isDigit c = true) (takeDigits s) /\
    (forall c r, post = c :: r -> isDigit c = false).
Proof.
  induction s as [|c t IH]; simpl.
  - exists []. repeat split; auto. discriminate.
  - destruct (isDigit c) eqn:E.
    + destruct IH as (post & Hs & Hd & Hp).
      exists post. repeat split; auto.
      simpl. now rewrite <- Hs.
    + exists (c :: t). repeat split; auto.
      intros c' r [= <- <-]. exact E.
Qed.

Lemma firstDigitRun_None (s : jsstring) :
  firstDigitRun s = None -> Forall (fun c => isDigit c = false) s.
Proof.
  induction s as [|c t IH]; simpl; intros H.
  - constructor.
  - destruct (isDigit c) eqn:E; [discriminate|]. constructor; auto.
Qed.

Lemma firstDigitRun_Some (s ds : jsstring) :
  firstDigitRun s = Some ds -> is_first_run s ds.
Proof.
  induction s as [|c t IH]; simpl; intros H.
  - discriminate.
  - destruct (isDigit c) eqn:E.
    + injection H as <-.
      destruct (takeDigits_split (c :: t)) as (post & Hs & Hd & Hp).
      exists [], post. simpl in *. rewrite E in *.
      repeat split; auto. discriminate.
    + destruct (IH H) as (pre & post & Hs & Hpre & Hd & Hne & Hp).
      exists (c :: pre), post. subst t. repeat split; auto.
Qed.

(** The scanner of the pattern, started inside a run. *)
Lemma scan_digits_run (ds : jsstring) : forall cur post,
  Forall (fun c => isDigit c = true) ds ->
  (forall c r, post = c :: r -> isDigit c = false) ->
  rev cur ++ ds <> [] ->
  scan_digits cur (ds ++ post) = (rev cur ++ ds) :: scan_digits [] post.
Proof.
  induction ds as [|d ds IH]; intros cur post Hd Hp Hne; simpl.
  - rewrite app_nil_r in *.
    destruct post as [|c r]; simpl.
    + destruct cur; [now simpl in Hne|reflexivity].
    + rewrite (Hp c r eq_refl).
      destruct cur; [now simpl in Hne|reflexivity].
  - inversion Hd as [|? ? Hd1 Hd2]; subst.
    rewrite Hd1. rewrite IH; auto.
    + simpl. now rewrite <- app_assoc.
    + simpl. rewrite <- app_assoc. simpl. now destruct (rev cur).
Qed.

Lemma scan_digits_skip (pre : jsstring) : forall s,
  Forall (fun c => isDigit c = false) pre ->
  scan_digits [] (pre ++ s) = scan_digits [] s.
Proof.
  induction pre as [|c pre IH]; intros s H; simpl; auto.
  inversion H; subst. rewrite H2. auto.
Qed.

Lemma match_digits_first (s ds : jsstring) :
  is_first_run s ds ->
  exists more, match_digits s = Some (ds :: more).
Proof.
  intros (pre & post & Hs & Hpre & Hd & Hne & Hp). subst s.
  unfold match_digits. rewrite scan_digits_skip by assumption.
  rewrite scan_digits_run with (cur := []); auto.
  eexists; reflexivity.
Qed.

Lemma match_digits_none (s : jsstring) :
  Forall (fun c => isDigit c = false) s -> match_digits s = None.
Proof.
  intros H. unfold match_digits.
  rewrite <- (app_nil_r s). now rewrite scan_digits_skip.
Qed.

Lemma digits_value_fold (ds : jsstring) : forall acc,
  Forall (fun c => isDigit c = true) ds ->
  digits_value acc ds = fold_left (fun a c => 10 * a + digitVal c) ds acc.
Proof.
  induction ds as [|d ds IH]; intros acc H; simpl; auto.
  inversion H; subst. rewrite H2. auto.
Qed.

Lemma parseInt_decimal (ds : jsstring) :
  Forall (fun c => isDigit c = true) ds -> ds <> [] ->
  parseInt ds = Some (decimal ds).
Proof.
  intros H Hne. destruct ds as [|d ds]; [congruence|].
  unfold parseInt. inversion H; subst. rewrite H2.
  now rewrite digits_value_fold.
Qed.

Lemma digitVal_range (c : ascii) : isDigit c = true -> 0 <= digitVal c <= 9.
Proof.
  unfold isDigit, digitVal. intros H.
  apply andb_true_iff in H as [H1 H2].
  apply Nat.leb_le in H1, H2. lia.
Qed.

Lemma fold_decimal_bounds (ds : jsstring) : forall acc,
  Forall (fun c => isDigit c = true) ds -> 0 <= acc ->
  acc * 10 ^ Z.of_nat (length ds)
  <= fold_left (fun a c => 10 * a + digitVal c) ds acc
  < (acc + 1) * 10 ^ Z.of_nat (length ds).
Proof.
  induction ds as [|d ds IH]; intros acc H Hacc.
  - simpl. lia.
  - inversion H; subst.
    pose proof (digitVal_range _ H2) as Hd.
    cbn [fold_left length]. rewrite Nat2Z.inj_succ, Z.pow_succ_r by lia.
    specialize (IH (10 * acc + digitVal d) H3 ltac:(lia)).
    assert (0 < 10 ^ Z.of_nat (length ds)) by (apply Z.pow_pos_nonneg; lia).
    nia.
Qed.

Lemma decimal_nonneg (ds : jsstring) :
  Forall (fun c => isDigit c = true) ds -> 0 <= decimal ds.
Proof.
  intros H. pose proof (@fold_decimal_bounds ds 0 H ltac:(lia)).
  unfold decimal. lia.
Qed.

Lemma decimal_short (ds : jsstring) :
  Forall (fun c => isDigit c = true) ds -> (length ds <= 2)%nat ->
  decimal ds <= 99.
Proof.
  intros H Hl. pose proof (@fold_decimal_bounds ds 0 H ltac:(lia)) as B.
  unfold decimal.
  assert (10 ^ Z.of_nat (length ds) <= 10 ^ 2)
    by (apply Z.pow_le_mono_r; lia).
  lia.
Qed.

(** What the code computes from the first run of digits: the two-digit rule
    is applied by value, then the window. *)
Lemma normalizeBatchYear_run (s ds : jsstring) :
  is_first_run s ds ->
  normalizeBatchYear s =
  in_window (if decimal ds <=? 99 then two_digit_year (decimal ds) else decimal ds).
Proof.
  intros Hrun.
  destruct (match_digits_first Hrun) as (more & Hm).
  destruct Hrun as (pre & post & Hs & Hpre & Hd & Hne & Hp).
  unfold normalizeBatchYear.
  assert (truthy s = true) as ->.
  { subst s. destruct pre; simpl; auto. destruct ds; [congruence|reflexivity]. }
  simpl. rewrite Hm, parseInt_decimal by assumption.
  pose proof (decimal_nonneg Hd) as H0.
  assert ((0 <=? decimal ds) = true) as -> by (apply Z.leb_le; lia).
  simpl. unfold in_window, two_digit_year.
  set (y := if decimal ds <=? 99 then _ else _).
  destruct (y <? 1980) eqn:E1, (y >? 2030) eqn:E2, (1980 <=? y) eqn:E3,
           (y <=? 2030) eqn:E4; simpl; try reflexivity; lia.
Qed.

Lemma normalizeBatchYear_nodigit (s : jsstring) :
  Forall (fun c => isDigit c = false) s -> normalizeBatchYear s = None.
Proof.
  intros H. unfold normalizeBatchYear.
  destruct (negb (truthy s)); auto.
  now rewrite match_digits_none.
Qed.

Lemma normalizeBatchYear_cases (s : jsstring) :
  normalizeBatchYear s = None \/
  exists v, normalizeBatchYear s = in_window v.
Proof.
  destruct (firstDigitRun s) as [ds|] eqn:E.
  - right. eexists. apply normalizeBatchYear_run.
    eapply firstDigitRun_Some; eassumption.
  - left. now apply normalizeBatchYear_nodigit, firstDigitRun_None.
Qed.

End BatchYear.

(** C1 (as amended).  For every batch string: with no digit the result is
    "no year"; otherwise the first maximal run of digits is read in base
    ten, a value of at most 99 (whatever the length of the run) becomes
    2000+v for v in 0..30 and 1900+v for v in 31..99, a larger value is kept,
    and the year so obtained is returned when it lies in [1980, 2030] and is
    "no year" otherwise, never clamped.  A run of one or two digits always
    has a value of at most 99. *)
Theorem normalizeBatchYear_first_run (s : jsstring) :
  match firstDigitRun s with
  | None =>
      Forall (fun c => isDigit c = false) s /\ normalizeBatchYear s = None
  | Some ds =>
      is_first_run s ds /\
      ((length ds <= 2)%nat -> 0 <= decimal ds <= 99) /\
      normalizeBatchYear s =
        (let v := decimal ds in
         let year := if v <=? 99
                     then (if v <=? 30 then 2000 + v else 1900 + v)
                     else v in
         if (1980 <=? year) && (year <=? 2030) then Some year else None)
  end.
Proof.
  destruct (firstDigitRun s) as [ds|] eqn:E.
  - pose proof (firstDigitRun_Some _ E) as Hrun.
    split; [exact Hrun|]. split.
    + destruct Hrun as (pre & post & Hs & Hpre & Hd & Hne & Hp).
      intros Hl. split; [now apply decimal_nonneg | now apply decimal_short].
    + now rewrite (normalizeBatchYear_run Hrun).
  - pose proof (firstDigitRun_None _ E) as Hno.
    split; [exact Hno | now apply normalizeBatchYear_nodigit].
Qed.

(** C1 as stated fails on a run of four digits with leading zeros: the
    year read directly from "0016" is 16, outside the window, and the code
    answers 2016 where the specification's wording gives "no year". *)
Lemma normalizeBatchYear_leading_zeros :
  normalizeBatchYear (str "0016") = Some 2016 /\
  spec_normalizeBatchYear (str "0016") = None.
Proof. split; reflexivity. Qed.

(** The sample inputs of the specification. *)
Remark normalizeBatchYear_samples :
  normalizeBatchYear (str "16") = Some 2016 /\
  normalizeBatchYear (str "85") = Some 1985 /\
  normalizeBatchYear (str "99") = Some 1999 /\
  normalizeBatchYear (str "45") = None /\
  normalizeBatchYear (str "Batch 2016") = Some 2016 /\
  normalizeBatchYear (str "2016-2020") = Some 2016 /\
  normalizeBatchYear (str "evening") = None /\
  normalizeBatchYear (str "2031") = None /\
  normalizeBatchYear (str "007") = Some 2007.
Proof. repeat split; reflexivity. Qed.

(* ================================================================== *)
(** ** Course canonicalisation *)
(* ================================================================== *)

Section Course.

Lemma upperChar_idem (c : ascii) : upperChar (upperChar c) = upperChar c.
Proof. destruct c as [[] [] [] [] [] [] [] []]; reflexivity. Qed.

Lemma isSpace_upperChar (c : ascii) : isSpace (upperChar c) = isSpace c.
Proof. destruct c as [[] [] [] [] [] [] [] []]; reflexivity. Qed.

Lemma upperChar_of_space (c : ascii) : isSpace c = true -> upperChar c = c.
Proof.
  destruct c as [[] [] [] [] [] [] [] []]; intros H;
    solve [reflexivity | discriminate H].
Qed.

Lemma toUpperCase_idem (s : jsstring) : toUpperCase (toUpperCase s) = toUpperCase s.
Proof.
  unfold toUpperCase. rewrite map_map.
  apply map_ext. intros; apply upperChar_idem.
Qed.

Lemma collapse_from_idem (s : jsstring) : forall b,
  collapse_from b (collapse_from b s) = collapse_from b s.
Proof.
  induction s as [|c t IH]; intros b; simpl; auto.
  destruct (isSpace c) eqn:E.
  - destruct b; simpl; [apply IH|].
    now rewrite IH.
  - simpl. rewrite E. now rewrite IH.
Qed.

Lemma collapse_from_upper (s : jsstring) : forall b,
  toUpperCase (collapse_from b s) = collapse_from b (toUpperCase s).
Proof.
  induction s as [|c t IH]; intros b; simpl; auto.
  rewrite isSpace_upperChar.
  destruct (isSpace c) eqn:E.
  - destruct b; simpl; now rewrite <- IH.
  - simpl. now rewrite <- IH.
Qed.

Lemma collapse_from_snoc (l : jsstring) (c : ascii) : forall b,
  isSpace c = false ->
  collapse_from b (l ++ [c]) = collapse_from b l ++ [c].
Proof.
  induction l as [|d l IH]; intros b E; simpl.
  - now rewrite E.
  - destruct (isSpace d); [destruct b|]; simpl; now rewrite IH.
Qed.

Lemma trimStart_head_ok (s : jsstring) : head_ok (trimStart s).
Proof.
  induction s as [|c t IH]; simpl; auto.
  destruct (isSpace c) eqn:E; simpl; auto.
Qed.

Lemma trimStart_fixed (s : jsstring) : head_ok s -> trimStart s = s.
Proof. destruct s as [|c t]; simpl; auto. now intros ->. Qed.

Lemma trimStart_snoc (l : jsstring) (c : ascii) :
  isSpace c = false -> trimStart (l ++ [c]) = trimStart l ++ [c].
Proof.
  intros E. induction l as [|d l IH]; simpl.
  - now rewrite E.
  - destruct (isSpace d); auto.
Qed.

Lemma trimEnd_cons (c : ascii) (u : jsstring) :
  isSpace c = false -> trimEnd (c :: u) = c :: trimEnd u.
Proof.
  intros E. unfold trimEnd. simpl.
  rewrite trimStart_snoc by assumption.
  now rewrite rev_app_distr.
Qed.

Lemma trimEnd_head_ok (u : jsstring) : head_ok u -> head_ok (trimEnd u).
Proof.
  destruct u as [|c u]; simpl; intros H.
  - exact I.
  - now rewrite trimEnd_cons.
Qed.

Lemma trimEnd_last_ok (s : jsstring) : head_ok (rev (trimEnd s)).
Proof. unfold trimEnd. rewrite rev_involutive. apply trimStart_head_ok. Qed.

Lemma trimEnd_fixed (s : jsstring) : head_ok (rev s) -> trimEnd s = s.
Proof.
  intros H. unfold trimEnd.
  rewrite trimStart_fixed by assumption. apply rev_involutive.
Qed.

Lemma trim_fixed (s : jsstring) : head_ok s -> head_ok (rev s) -> trim s = s.
Proof.
  intros H1 H2. unfold trim.
  rewrite trimStart_fixed by assumption. now apply trimEnd_fixed.
Qed.

Lemma toUpperCase_head_ok (s : jsstring) : head_ok s -> head_ok (toUpperCase s).
Proof. destruct s; simpl; auto. now rewrite isSpace_upperChar. Qed.

Lemma toUpperCase_rev (s : jsstring) : rev (toUpperCase s) = toUpperCase (rev s).
Proof. unfold toUpperCase. symmetry. apply map_rev. Qed.

Lemma replace_spaces_head_ok (s : jsstring) : head_ok s -> head_ok (replace_spaces s).
Proof.
  destruct s as [|c t]; unfold replace_spaces; simpl; auto.
  intros E. now rewrite E.
Qed.

Lemma replace_spaces_last_ok (s : jsstring) :
  head_ok (rev s) -> head_ok (rev (replace_spaces s)).
Proof.
  intros H. destruct (rev s) as [|c r] eqn:E.
  - apply (f_equal (@rev ascii)) in E. rewrite rev_involutive in E.
    subst s. exact I.
  - apply (f_equal (@rev ascii)) in E. rewrite rev_involutive in E.
    subst s. simpl in *. unfold replace_spaces.
    rewrite collapse_from_snoc by assumption.
    rewrite rev_app_distr. exact H.
Qed.

(** The canonical form has no white space at either end. *)
Lemma canonical_edges (x : jsstring) :
  head_ok (canonical x) /\ head_ok (rev (canonical x)).
Proof.
  unfold canonical. split.
  - apply replace_spaces_head_ok, toUpperCase_head_ok.
    unfold trim. apply trimEnd_head_ok, trimStart_head_ok.
  - apply replace_spaces_last_ok. rewrite toUpperCase_rev.
    apply toUpperCase_head_ok. unfold trim. apply trimEnd_last_ok.
Qed.

Lemma canonical_idem (x : jsstring) : canonical (canonical x) = canonical x.
Proof.
  destruct (canonical_edges x) as [H1 H2].
  unfold canonical at 1. rewrite trim_fixed by assumption.
  unfold canonical, replace_spaces.
  rewrite collapse_from_upper, toUpperCase_idem.
  apply collapse_from_idem.
Qed.

Lemma trimStart_blank (s : jsstring) : isBlank s = true -> trimStart s = [].
Proof.
  induction s as [|c t IH]; simpl; auto.
  intros H. apply andb_true_iff in H as [-> H]. auto.
Qed.

Lemma trim_blank (s : jsstring) : isBlank s = true -> trim s = [].
Proof. intros H. unfold trim. now rewrite trimStart_blank. Qed.

Lemma trimStart_not_blank (s : jsstring) :
  isBlank s = false -> trimStart s <> [].
Proof.
  induction s as [|c t IH]; simpl; [discriminate|].
  destruct (isSpace c) eqn:E; simpl; [exact IH | discriminate].
Qed.

Lemma canonical_not_blank (x : jsstring) :
  isBlank x = false -> canonical x <> [].
Proof.
  intros H. pose proof (trimStart_not_blank _ H) as Hne.
  pose proof (trimStart_head_ok x) as Hh.
  unfold canonical, trim.
  destruct (trimStart x) as [|c u]; [congruence|].
  simpl in Hh. rewrite trimEnd_cons by assumption.
  unfold replace_spaces, toUpperCase. simpl.
  rewrite isSpace_upperChar, Hh. discriminate.
Qed.

Lemma normalizeCourse_nonempty (x : jsstring) :
  x <> [] -> normalizeCourse x = canonical x.
Proof. destruct x; [congruence|reflexivity]. Qed.

End Course.

(** C4 (as amended).  Canonicalisation is idempotent on every course string
    that is empty or holds a code unit other than white space, and two
    inputs that are both empty or both non-empty and agree after
    trim, upper-case and collapse get the same key. *)
Theorem normalizeCourse_idempotent (x y : jsstring) :
  (x = [] \/ isBlank x = false ->
   normalizeCourse (normalizeCourse x) = normalizeCourse x) /\
  (truthy x = truthy y -> canonical x = canonical y ->
   normalizeCourse x = normalizeCourse y).
Proof.
  split.
  - intros [-> | H]; [reflexivity|].
    assert (x <> []) as Hx by (intros ->; discriminate).
    rewrite (normalizeCourse_nonempty Hx).
    rewrite (normalizeCourse_nonempty (canonical_not_blank _ H)).
    apply canonical_idem.
  - intros Ht Hc. unfold normalizeCourse, canonical in *.
    rewrite Ht. destruct (negb (truthy y)); auto.
Qed.

Lemma normalizeCourse_idempotent_witness :
  normalizeCourse (normalizeCourse (str " b  c a ")) = normalizeCourse (str " b  c a ") /\
  normalizeCourse (str "bca") = normalizeCourse (str " BCA ").
Proof.
  split.
  - apply (normalizeCourse_idempotent (str " b  c a ") []).
    right. reflexivity.
  - apply (normalizeCourse_idempotent (str "bca") (str " BCA ")); reflexivity.
Defined.

(** C4 as stated fails on a course of white space only: its key is the
    empty string, whose key is the sentinel; and the empty string agrees
    with it after trim, upper-case and collapse yet has another key. *)
Lemma normalizeCourse_not_idempotent :
  normalizeCourse (normalizeCourse (str " ")) <> normalizeCourse (str " ") /\
  canonical (str " ") = canonical (str "") /\
  normalizeCourse (str " ") <> normalizeCourse (str "").
Proof. repeat split; discriminate. Qed.

(** C10.  A course of white space only that is not empty has the empty
    string as its key, not the sentinel: among the strings of white space
    only, the sentinel is the key of the empty string alone, because the
    test for emptiness comes before the trimming.  (Any other input with the
    key "UNKNOWN" is a text that spells that word.) *)
Theorem normalizeCourse_blank (s : jsstring) :
  (isBlank s = true -> s <> [] -> normalizeCourse s = []) /\
  (isBlank s = true -> (normalizeCourse s = str "UNKNOWN" <-> s = [])) /\
  (normalizeCourse s = str "UNKNOWN" <-> s = [] \/ canonical s = str "UNKNOWN").
Proof.
  assert (isBlank s = true -> s <> [] -> normalizeCourse s = []) as Hn.
  { intros H Hs. rewrite (normalizeCourse_nonempty Hs).
    unfold canonical. now rewrite trim_blank. }
  split; [exact Hn|]. split.
  - intros H. split.
    + intros E. destruct s as [|c t]; [reflexivity|].
      rewrite Hn in E by (auto; discriminate). discriminate.
    + intros ->. reflexivity.
  - destruct s as [|c t].
    + split; [now left | reflexivity].
    + change (normalizeCourse (c :: t)) with (canonical (c :: t)).
      split; [now right | intros [H|H]; [discriminate | exact H]].
Qed.

Lemma normalizeCourse_blank_witness :
  normalizeCourse (str "   ") = [] /\
  normalizeCourse (str "   ") <> str "UNKNOWN".
Proof.
  destruct (normalizeCourse_blank (str "   ")) as (H1 & H2 & _).
  split.
  - apply H1; [reflexivity | discriminate].
  - intros E. apply (H2 eq_refl) in E. discriminate.
Defined.

(* ================================================================== *)
(** ** Free-text search *)
(* ================================================================== *)

Section Search.

Lemma string_eqb_eq (a : jsstring) : forall b, string_eqb a b = true <-> a = b.
Proof.
  induction a as [|x a IH]; intros [|y b]; simpl; split; intros H;
    try reflexivity; try discriminate.
  - apply andb_true_iff in H as [H1 H2].
    apply Ascii.eqb_eq in H1. apply IH in H2. congruence.
  - injection H as -> ->. apply andb_true_iff. split.
    + apply Ascii.eqb_refl.
    + now apply IH.
Qed.

Lemma startsWith_prefix (needle : jsstring) : forall hay,
  startsWith needle hay = true <-> exists post, hay = needle ++ post.
Proof.
  induction needle as [|x n IH]; intros hay; simpl.
  - split; [intros _; now exists hay | reflexivity].
  - destruct hay as [|y h].
    + split; [discriminate | intros [post H]; discriminate].
    + rewrite andb_true_iff, IH. unfold ascii_eqb. rewrite Ascii.eqb_eq.
      split.
      * intros [-> [post ->]]. now exists post.
      * intros [post [= -> ->]]. split; [reflexivity | now exists post].
Qed.

Lemma includes_substring (hay : jsstring) : forall needle,
  includes hay needle = true <-> substring_of needle hay.
Proof.
  unfold substring_of.
  induction hay as [|y h IH]; intros needle.
  - simpl. rewrite orb_false_r, startsWith_prefix. split.
    + intros [post H]. now exists [], post.
    + intros [pre [post H]]. destruct pre; [now exists post|discriminate].
  - cbn [includes]. rewrite orb_true_iff, startsWith_prefix, IH. split.
    + intros [[post H] | [pre [post H]]].
      * now exists [], post.
      * exists (y :: pre), post. simpl. now rewrite H.
    + intros [[|c pre] [post H]].
      * left. now exists post.
      * right. injection H as -> H. now exists pre, post.
Qed.

Lemma includes_nil (hay : jsstring) : includes hay [] = true.
Proof. destruct hay; reflexivity. Qed.

Lemma globalFilterFn_iff (a : Attendee) (q : jsstring) :
  Roster.globalFilterFn a q = true <->
  ci_substring q (fullName a) \/ ci_substring q (or_empty (contactNo a)).
Proof.
  unfold Roster.globalFilterFn, ci_substring.
  rewrite orb_true_iff, !includes_substring.
  destruct (contactNo a); simpl; tauto.
Qed.

Lemma opt_includes_iff (v : option jsstring) (q : jsstring) :
  opt_includes v (toLowerCase q) = true <->
  exists s, v = Some s /\ ci_substring q s.
Proof.
  unfold ci_substring. destruct v as [s|]; simpl.
  - rewrite includes_substring. split.
    + intros H. now exists s.
    + now intros [s' [[= <-] H]].
  - split; [discriminate | now intros [s [H _]]].
Qed.

Lemma matchesSearch_iff (a : Attendee) (q : jsstring) :
  matchesSearch q a = true <->
  ci_substring q (fullName a) \/ ci_substring q (course a) \/
  (exists s, shift a = Some s /\ ci_substring q s) \/
  ci_substring q (batch a) \/
  (exists c, contactNo a = Some c /\ ci_substring q c).
Proof.
  unfold matchesSearch.
  rewrite !orb_true_iff, !opt_includes_iff, !includes_substring.
  unfold ci_substring. tauto.
Qed.

End Search.

(** C2 (as amended).  The roster and the print view apply one and the same
    search predicate: a record matches exactly when the search string,
    case ignored, occurs in its [fullName] or in its [contactNo] (an unset
    [contactNo] counting as the empty string).  The admin console applies a
    wider one: a record matches exactly when the search string, case
    ignored, occurs in its [fullName], [course], [shift], [batch] or
    [contactNo]; every record the roster shows for a search, the admin
    console shows too. *)
Theorem search_predicates (a : Attendee) (q : jsstring) :
  Roster.globalFilterFn a q = PrintView.globalFilterFn a q /\
  (Roster.globalFilterFn a q = true <->
   ci_substring q (fullName a) \/ ci_substring q (or_empty (contactNo a))) /\
  (matchesSearch q a = true <->
   ci_substring q (fullName a) \/ ci_substring q (course a) \/
   (exists s, shift a = Some s /\ ci_substring q s) \/
   ci_substring q (batch a) \/
   (exists c, contactNo a = Some c /\ ci_substring q c)) /\
  (Roster.globalFilterFn a q = true -> matchesSearch q a = true).
Proof.
  split; [reflexivity|].
  split; [apply globalFilterFn_iff|].
  split; [apply matchesSearch_iff|].
  rewrite globalFilterFn_iff, matchesSearch_iff.
  intros [H | H]; [now left|].
  destruct (contactNo a) as [c|]; simpl in H.
  - right; right; right; right. now exists c.
  - left. destruct H as (pre & post & H).
    unfold ci_substring, substring_of.
    destruct pre; [|discriminate].
    destruct (toLowerCase q); [|discriminate].
    now exists [], (toLowerCase (fullName a)).
Qed.

(** C2 as stated fails for the admin console: a search for "bca" keeps a
    record whose course is "BCA", although "bca" occurs neither in its
    [fullName] nor in its [contactNo]; the roster drops that record. *)
Lemma admin_search_matches_course :
  matchesSearch (str "bca") asha = true /\
  includes (toLowerCase (fullName asha)) (toLowerCase (str "bca")) = false /\
  includes (toLowerCase (or_empty (contactNo asha))) (toLowerCase (str "bca")) = false /\
  Roster.globalFilterFn asha (str "bca") = false.
Proof. repeat split; reflexivity. Qed.

(* ================================================================== *)
(** ** The pairing of presence and check-in time *)
(* ================================================================== *)

Section Pairing.

Lemma setPresence_paired (p : bool) (now : Z) (a : Attendee) :
  paired (setPresence p now a).
Proof. unfold paired; destruct p; simpl; split; congruence. Qed.

Lemma clearPresence_paired (a : Attendee) : paired (clearPresence a).
Proof. unfold paired; simpl; split; congruence. Qed.

Lemma db_patch_docs (id : nat) (f : Attendee -> Attendee) (st st' : Store) :
  db_patch id f st = Some st' ->
  docs st' = map (fun a => if Nat.eqb (_id a) id then f a else a) (docs st) /\
  nextId st' = nextId st.
Proof.
  unfold db_patch. destruct (hasId id st); [|discriminate].
  intros [= <-]. now split.
Qed.

Lemma db_patch_paired (id : nat) (f : Attendee -> Attendee) (st st' : Store) :
  (forall a, paired (f a)) ->
  db_patch id f st = Some st' ->
  Forall paired (docs st) -> Forall paired (docs st').
Proof.
  intros Hf Hp H. apply db_patch_docs in Hp as [-> _].
  apply Forall_map. eapply Forall_impl; [|exact H].
  intros a Ha. simpl. destruct (Nat.eqb (_id a) id); auto.
Qed.

Lemma db_delete_paired (id : nat) (st st' : Store) :
  db_delete id st = Some st' ->
  Forall paired (docs st) -> Forall paired (docs st').
Proof.
  unfold db_delete. destruct (hasId id st); [|discriminate].
  intros [= <-] H. simpl.
  apply Forall_forall. intros a Ha. apply filter_In in Ha as [Ha _].
  now apply (proj1 (Forall_forall _ _) H).
Qed.

Lemma markBulkAttendance_paired (ids : list nat) (p : bool) :
  forall now st st',
    markBulkAttendance ids p now st = Some st' ->
    Forall paired (docs st) -> Forall paired (docs st').
Proof.
  induction ids as [|id rest IH]; intros now st st' Hm H; simpl in Hm.
  - now injection Hm as <-.
  - destruct (db_patch id (setPresence p (now O)) st) as [st1|] eqn:E;
      [|discriminate].
    eapply IH; [exact Hm|].
    eapply db_patch_paired; [|exact E|exact H].
    intros a. apply setPresence_paired.
Qed.

Lemma importOne_docs (a : NewAttendee) (now : Z) (st : Store) :
  exists d, docs (fst (importOne a now st)) = docs st ++ [d] /\
            imported_as a d /\ paired d.
Proof.
  unfold importOne, db_insert. simpl. eexists. split; [reflexivity|].
  unfold imported_as, paired. simpl.
  destruct (newPresent a) as [[|]|]; repeat split; congruence.
Qed.

Lemma bulkImport_loop_docs (l : list NewAttendee) :
  forall now ids st,
  exists new,
    docs (fst (bulkImport_loop l now ids st)) = docs st ++ new /\
    Forall2 imported_as l new /\ Forall paired new.
Proof.
  induction l as [|a rest IH]; intros now ids st; cbn [bulkImport_loop].
  - exists []. simpl. rewrite app_nil_r. repeat split; constructor.
  - destruct (importOne_docs a (now O) st) as (d & Hd & Hi & Hp).
    destruct (importOne a (now O) st) as [st1 id] eqn:E. simpl in Hd.
    destruct (IH (fun k => now (S k)) (ids ++ [id]) st1) as (new & Hn & Hf & Hq).
    exists (d :: new). rewrite Hn, Hd, <- app_assoc. simpl.
    repeat split; try constructor; auto.
Qed.

Lemma bulkImport_docs (l : list NewAttendee) (now : nat -> Z) (st : Store) :
  exists new,
    docs (fst (bulkImport l now st)) = docs st ++ new /\
    Forall2 imported_as l new /\ Forall paired new.
Proof.
  unfold bulkImport.
  destruct (bulkImport_loop_docs l now [] st) as (new & H).
  destruct (bulkImport_loop l now [] st) as [st' ids]. now exists new.
Qed.

Lemma clearAll_loop_paired (all : list Attendee) : forall st st',
  clearAll_loop all st = Some st' ->
  Forall paired (docs st) -> Forall paired (docs st').
Proof.
  induction all as [|a rest IH]; intros st st' Hc H; simpl in Hc.
  - now injection Hc as <-.
  - destruct (db_delete (_id a) st) as [st1|] eqn:E; [|discriminate].
    eapply IH; [exact Hc|]. eapply db_delete_paired; eauto.
Qed.

(** Every document of [rest] is in the table; the loop then clears the
    documents it names, and does not throw. *)
Lemma resetAttendance_loop_docs (all : list Attendee) : forall st,
  (forall a, In a all -> hasId (_id a) st = true) ->
  resetAttendance_loop all st =
  Some (mkStore
          (map (fun d => if existsb (fun a => Nat.eqb (_id a) (_id d)) all
                         then clearPresence d else d)
               (docs st))
          (nextId st)).
Proof.
  induction all as [|a rest IH]; intros st Hin; simpl.
  - destruct st as [ds n]. simpl. f_equal. f_equal.
    symmetry. apply map_id.
  - unfold db_patch. rewrite (Hin a (or_introl eq_refl)).
    rewrite IH.
    + simpl. f_equal. f_equal. rewrite map_map. apply map_ext.
      intros d. rewrite (Nat.eqb_sym (_id a) (_id d)).
      destruct (Nat.eqb (_id d) (_id a)) eqn:E; simpl.
      * now destruct (existsb _ rest).
      * reflexivity.
    + intros b Hb. specialize (Hin b (or_intror Hb)).
      unfold hasId in *. simpl. rewrite existsb_exists in *.
      destruct Hin as (x & Hx & Hid).
      exists (if Nat.eqb (_id x) (_id a) then clearPresence x else x).
      split.
      * apply in_map_iff. now exists x.
      * now destruct (Nat.eqb (_id x) (_id a)).
Qed.

Lemma resetAttendance_total (st : Store) :
  resetAttendance st =
  Some (mkStore (map clearPresence (docs st)) (nextId st), length (docs st)).
Proof.
  unfold resetAttendance. rewrite resetAttendance_loop_docs.
  - f_equal. f_equal. f_equal. apply map_ext_in. intros d Hd.
    assert (existsb (fun a => Nat.eqb (_id a) (_id d)) (docs st) = true) as ->;
      [|reflexivity].
    apply existsb_exists. exists d. split; [exact Hd | apply Nat.eqb_refl].
  - intros a Ha. unfold hasId. apply existsb_exists.
    exists a. split; [exact Ha | apply Nat.eqb_refl].
Qed.

Lemma step_paired (st st' : Store) :
  step st st' -> Forall paired (docs st) -> Forall paired (docs st').
Proof.
  intros Hs H. destruct Hs as
    [id p now st st' Hm | ids p now st st' Hm | args st | l now st
    | id st st' Hd | st st' n Hc | st st' n Hr].
  - eapply db_patch_paired; [|exact Hm|exact H].
    intros a. apply setPresence_paired.
  - eapply markBulkAttendance_paired; eauto.
  - simpl. apply Forall_app. split; [exact H|].
    constructor; [|constructor]. unfold paired; simpl; split; congruence.
  - destruct (bulkImport_docs l now st) as (new & -> & _ & Hp).
    apply Forall_app. now split.
  - eapply db_delete_paired; eauto.
  - unfold clearAll in Hc.
    destruct (clearAll_loop (docs st) st) as [st1|] eqn:E; [|discriminate].
    injection Hc as <- _. eapply clearAll_loop_paired; eauto.
  - rewrite resetAttendance_total in Hr. injection Hr as <- _. simpl.
    apply Forall_map, Forall_forall. intros a _. apply clearPresence_paired.
Qed.

Lemma reachable_paired (st : Store) : reachable st -> Forall paired (docs st).
Proof.
  induction 1 as [|st st' _ IH Hs].
  - constructor.
  - eapply step_paired; eauto.
Qed.

End Pairing.

(** C3.  In every store the mutations produce from the empty table, each
    record has [checkedInAt] set exactly when [isPresent] is true, and each
    mutation keeps that pairing.  Marking a record absent leaves it absent
    with no [checkedInAt]; resetting never fails and leaves every record
    absent with no [checkedInAt]; a record added singly is absent with no
    [checkedInAt]; bulk import appends one record per element, present
    exactly as the element says (absent when it says nothing) and with
    [checkedInAt] set exactly when the element says present. *)
Theorem presence_pairing :
  (forall st, reachable st -> Forall paired (docs st)) /\
  (forall st st', step st st' -> Forall paired (docs st) ->
                  Forall paired (docs st')) /\
  (forall id now st st' a,
      markAttendance id false now st = Some st' ->
      In a (docs st') -> _id a = id ->
      isPresent a = false /\ checkedInAt a = None) /\
  (forall st,
      exists st', resetAttendance st = Some (st', length (docs st)) /\
                  Forall (fun a => isPresent a = false /\ checkedInAt a = None)
                         (docs st')) /\
  (forall args st,
      exists d, docs (fst (addAttendee args st)) = docs st ++ [d] /\
                isPresent d = false /\ checkedInAt d = None) /\
  (forall attendees now st,
      exists new, docs (fst (bulkImport attendees now st)) = docs st ++ new /\
                  Forall2 imported_as attendees new).
Proof.
  split; [exact reachable_paired|].
  split; [exact step_paired|].
  split.
  { intros id now st st' a Hm Hin Hid.
    apply db_patch_docs in Hm as [Hd _]. rewrite Hd in Hin.
    apply in_map_iff in Hin as (x & Hx & _). subst a.
    destruct (Nat.eqb (_id x) id) eqn:E.
    - now split.
    - apply Nat.eqb_neq in E. contradiction. }
  split.
  { intros st. eexists. split; [apply resetAttendance_total|].
    simpl. apply Forall_map, Forall_forall. intros a _. now split. }
  split.
  { intros args st. eexists. split; [reflexivity|]. now split. }
  intros l now st. destruct (bulkImport_docs l now st) as (new & H1 & H2 & _).
  now exists new.
Qed.

(** The scenario of the specification: a record marked present, then
    absent, has no [checkedInAt] left. *)
Remark present_then_absent :
  match markAttendance 0 true 1767323045000 oneRecord with
  | Some st1 =>
      map checkedInAt (docs st1) = [Some 1767323045000] /\
      match markAttendance 0 false 1767323099000 st1 with
      | Some st2 =>
          map isPresent (docs st2) = [false] /\ map checkedInAt (docs st2) = [None]
      | None => False
      end
  | None => False
  end.
Proof. repeat split; reflexivity. Qed.

(* ================================================================== *)
(** ** Statistics *)
(* ================================================================== *)

Section Statistics.

Lemma filter_isPresent_count (l : list Attendee) :
  length (filter isPresent l) = countPresent l.
Proof.
  induction l as [|a t IH]; simpl; auto.
  destruct (isPresent a); simpl; now rewrite IH.
Qed.

Lemma countPresent_le (l : list Attendee) : (countPresent l <= length l)%nat.
Proof.
  induction l as [|a t IH]; simpl; auto.
  destruct (isPresent a); lia.
Qed.







End Statistics.



(** Sample figures. *)
Remark getStats_samples :
  percentage (getStats (sampleStore 1 3)) = Some 33 /\
  percentage (getStats (sampleStore 2 3)) = Some 67 /\
  percentage (getStats (sampleStore 1 2)) = Some 50 /\
  percentage (getStats (sampleStore 5 5)) = Some 100 /\
  percentage (getStats (sampleStore 29 200)) = Some 14.
Proof. repeat split; vm_compute; reflexivity. Qed.

(* ================================================================== *)
(** ** Sorting by batch *)
(* ================================================================== *)

Section Sorting.

Variable A : Type.
Variable cmp : A -> A -> Z.
Variable key : A -> Z.
Hypothesis cmp_key : forall a b, (cmp a b <=? 0) = (key a <=? key b).

Lemma sort_insert_perm (x : A) (l : list A) :
  Permutation (x :: l) (sort_insert cmp x l).
Proof.
  induction l as [|y t IH]; simpl; auto.
  destruct (cmp x y <=? 0); auto.
  rewrite perm_swap. now constructor.
Qed.

Lemma Array_sort_perm (l : list A) : Permutation l (Array_sort cmp l).
Proof.
  induction l as [|x t IH]; simpl; auto.
  rewrite <- sort_insert_perm. now constructor.
Qed.

Lemma sort_insert_sorted (x : A) (l : list A) :
  StronglySorted (fun a b => key a <= key b) l ->
  StronglySorted (fun a b => key a <= key b) (sort_insert cmp x l).
Proof.
  induction 1 as [|y t Hs IH Hy]; simpl.
  - repeat constructor.
  - rewrite cmp_key. destruct (key x <=? key y) eqn:E.
    + apply Z.leb_le in E. constructor; [now constructor|].
      constructor; auto.
      eapply Forall_impl; [|exact Hy]. simpl; intros; lia.
    + apply Z.leb_gt in E. constructor; auto.
      eapply Permutation_Forall; [apply sort_insert_perm|].
      constructor; auto. lia.
Qed.

Lemma Array_sort_sorted (l : list A) :
  StronglySorted (fun a b => key a <= key b) (Array_sort cmp l).
Proof.
  induction l as [|x t IH]; simpl.
  - constructor.
  - now apply sort_insert_sorted.
Qed.

End Sorting.

Section BatchSort.

Lemma sortKey_batch (a : Attendee) : sortKey (str "batch") a = KNum (batchKey a).
Proof. reflexivity. Qed.

Lemma compareFn_batch (a b : Attendee) :
  (compareFn (str "batch") Asc a b <=? 0) = (batchKey a <=? batchKey b).
Proof.
  unfold compareFn. rewrite !sortKey_batch. simpl.
  destruct (batchKey a <? batchKey b) eqn:E1.
  - apply Z.ltb_lt in E1. symmetry. apply Z.leb_le. lia.
  - destruct (batchKey b <? batchKey a) eqn:E2.
    + apply Z.ltb_lt in E2. symmetry. apply Z.leb_gt. lia.
    + apply Z.ltb_ge in E1, E2. symmetry. apply Z.leb_le. lia.
Qed.

Lemma normalizeBatchYear_window (s : jsstring) (y : Z) :
  normalizeBatchYear s = Some y -> 1980 <= y <= 2030.
Proof.
  pose proof (normalizeBatchYear_cases s) as H.
  intros E. rewrite E in H. unfold in_window in H.
  destruct H as [H | (v & H)]; [discriminate|].
  destruct ((1980 <=? v) && (v <=? 2030)) eqn:B; [|discriminate].
  injection H as <-. apply andb_true_iff in B as [B1 B2].
  apply Z.leb_le in B1, B2. lia.
Qed.

Lemma batchKey_parseable (a : Attendee) :
  (parseable a -> 1980 <= batchKey a <= 2030) /\
  (~ parseable a -> batchKey a = 9999).
Proof.
  unfold parseable, batchKey.
  destruct (normalizeBatchYear (batch a)) as [y|] eqn:E; split; intros H.
  - now apply (normalizeBatchYear_window (batch a)).
  - exfalso. apply H. discriminate.
  - congruence.
  - reflexivity.
Qed.

(** In a list in batch order, the records with a year come first. *)
Lemma sorted_parseable_first (l : list Attendee) :
  StronglySorted (fun a b => batchKey a <= batchKey b) l ->
  exists l1 l2, l = l1 ++ l2 /\ Forall parseable l1 /\
                Forall (fun a => ~ parseable a) l2.
Proof.
  induction 1 as [|a t Hs IH Ha].
  - exists [], []. repeat split; constructor.
  - destruct IH as (l1 & l2 & -> & H1 & H2).
    destruct (normalizeBatchYear (batch a)) as [y|] eqn:E.
    + exists (a :: l1), l2. repeat split; auto.
      constructor; auto. unfold parseable. congruence.
    + assert (~ parseable a) as Hn by (unfold parseable; congruence).
      exists [], (a :: l1 ++ l2). repeat split; auto.
      constructor; auto.
      apply Forall_forall. intros b Hb Hp.
      apply (proj1 (Forall_forall _ _) Ha) in Hb.
      apply (proj2 (batchKey_parseable a)) in Hn.
      apply (proj1 (batchKey_parseable b)) in Hp. lia.
Qed.

End BatchSort.

(** C8.  Sorting by the batch column in ascending order rearranges the
    records (none lost, none added) so that their normalised years never
    decrease, a batch without a year counting as 9999, above every year the
    normalisation can give; so the records with a year come first and those
    without come last.  The records with batches "2016", "16" and
    "Batch 1999" come out with "Batch 1999" first, and "2016" and "16"
    compare as equal. *)
Theorem sortedDataForExport_batch (l : list Attendee) :
  Permutation l (sortedDataForExport l (str "batch") Asc) /\
  StronglySorted (fun a b => batchKey a <= batchKey b)
                 (sortedDataForExport l (str "batch") Asc) /\
  (forall a, (parseable a -> batchKey a < 9999) /\
             (~ parseable a -> batchKey a = 9999)) /\
  (exists l1 l2, sortedDataForExport l (str "batch") Asc = l1 ++ l2 /\
                 Forall parseable l1 /\ Forall (fun a => ~ parseable a) l2) /\
  sortedDataForExport [r2016; r16; rBatch1999] (str "batch") Asc
    = [rBatch1999; r2016; r16] /\
  compareFn (str "batch") Asc r2016 r16 = 0 /\
  compareFn (str "batch") Asc r16 r2016 = 0 /\
  compareFn (str "batch") Asc rBatch1999 r16 = -1 /\
  sortedDataForExport [rNoYear; r16; rBatch1999] (str "batch") Asc
    = [rBatch1999; r16; rNoYear].
Proof.
  unfold sortedDataForExport.
  split; [apply Array_sort_perm|].
  assert (StronglySorted (fun a b => batchKey a <= batchKey b)
            (Array_sort (compareFn (str "batch") Asc) l)) as Hs
    by (apply Array_sort_sorted, compareFn_batch).
  split; [exact Hs|].
  split.
  { intros a. pose proof (batchKey_parseable a) as [H1 H2].
    split; [intros H; specialize (H1 H); lia | exact H2]. }
  split; [now apply sorted_parseable_first|].
  repeat split; reflexivity.
Qed.

(* ================================================================== *)
(** ** CSV import *)
(* ================================================================== *)

Section CsvImport.

Lemma findIndex_from_None {A} (p : A -> bool) (l : list A) : forall i,
  findIndex_from p i l = None <-> existsb p l = false.
Proof.
  induction l as [|x t IH]; intros i; simpl.
  - tauto.
  - destruct (p x); simpl; [split; discriminate | apply IH].
Qed.

Lemma findIndex_None {A} (p : A -> bool) (l : list A) :
  findIndex p l = None <-> existsb p l = false.
Proof. apply findIndex_from_None. Qed.

Lemma find_None_existsb {A} (p : A -> bool) (l : list A) :
  find p l = None <-> existsb p l = false.
Proof.
  induction l as [|x t IH]; simpl.
  - tauto.
  - destruct (p x); simpl; [split; discriminate | apply IH].
Qed.

(** When a required role finds no header, one of the three searches of
    [parseCSV] comes back empty. *)
Lemma unresolved_findIndex (headers : list jsstring) :
  resolves headers = false ->
  findIndex isNameHeader headers = None \/
  findIndex isCourseHeader headers = None \/
  findIndex isBatchHeader headers = None.
Proof.
  unfold resolves. rewrite !andb_false_iff, !findIndex_None. tauto.
Qed.

Lemma unresolved_find (headers : list jsstring) :
  resolves headers = false ->
  find isNameHeader headers = None \/
  find isCourseHeader headers = None \/
  find isBatchHeader headers = None.
Proof.
  unfold resolves. rewrite !andb_false_iff, !find_None_existsb. tauto.
Qed.

Lemma split_from_nonempty (sep : ascii) (s : jsstring) : forall cur,
  split_from sep cur s <> [].
Proof.
  induction s as [|c t IH]; intros cur; simpl; [discriminate|].
  destruct (ascii_eqb c sep); [discriminate | apply IH].
Qed.

Lemma SplitCSV_unresolved (text : jsstring) :
  resolves (SplitCSV.headersOf (hd [] (split newline (trim text)))) = false ->
  records (SplitCSV.parseCSV text) = [] /\
  alerts (SplitCSV.parseCSV text) =
    if (2 <=? length (split newline (trim text)))%nat
    then [missingColumns] else [].
Proof.
  intros H. unfold SplitCSV.parseCSV.
  destruct (split newline (trim text)) as [|header [|row rows]] eqn:E.
  - now split.
  - now split.
  - simpl in H. apply unresolved_findIndex in H.
    cbn [length Nat.leb].
    destruct H as [-> | [-> | ->]];
      repeat match goal with
             | |- context [match ?x with Some _ => _ | None => _ end] =>
                 destruct x
             end; now split.
Qed.

Lemma PapaCSV_unresolved (result : PapaCSV.ParseResult) :
  resolves (PapaCSV.keys (hd [] (PapaCSV.data result))) = false ->
  records (PapaCSV.parseCSV_of result) = [] /\
  alerts (PapaCSV.parseCSV_of result) =
    match PapaCSV.errors result, PapaCSV.data result with
    | e :: _, _ => [str "CSV parsing error: " ++ e]
    | [], [] => []
    | [], _ :: _ => [missingColumns]
    end.
Proof.
  intros H. unfold PapaCSV.parseCSV_of.
  destruct (PapaCSV.errors result) as [|e es]; [|now split].
  destruct (PapaCSV.data result) as [|first rest]; [now split|].
  simpl in H. apply unresolved_find in H.
  destruct H as [-> | [-> | ->]];
    repeat match goal with
           | |- context [match ?x with Some _ => _ | None => _ end] =>
               destruct x
           | |- context [if ?x then _ else _] => destruct x
           end; now split.
Qed.

(** The loops of both revisions: the records of the rows with a name, in
    the order of the rows. *)
Lemma parseLines_map (n c b : nat) (s ct : option nat) (rows : list jsstring) :
  forall acc,
    SplitCSV.parseLines n c b s ct rows acc =
    acc ++ map (lineRecord n c b s ct) (filter (lineHasName n) rows).
Proof.
  induction rows as [|line rest IH]; intros acc; simpl.
  - now rewrite app_nil_r.
  - rewrite IH. unfold SplitCSV.parseLine, lineHasName, cells.
    destruct (cell_truthy _); simpl.
    + now rewrite <- app_assoc.
    + reflexivity.
Qed.

Lemma parseRows_map (n c b : jsstring) (s ct p : option jsstring)
    (rows : list PapaCSV.Row) :
  forall acc,
    PapaCSV.parseRows n c b s ct p rows acc =
    acc ++ map (rowRecord n c b s ct p) (filter (rowHasName n) rows).
Proof.
  induction rows as [|row rest IH]; intros acc; simpl.
  - now rewrite app_nil_r.
  - rewrite IH. unfold PapaCSV.parseRow, rowHasName.
    destruct (cell_truthy _); simpl.
    + now rewrite <- app_assoc.
    + reflexivity.
Qed.

Lemma find_truthy (p : jsstring -> bool) (headers : list jsstring) (k : jsstring) :
  (forall h, p h = true -> truthy h = true) ->
  find p headers = Some k -> truthy k = true.
Proof.
  intros Hp H. apply find_some in H as [_ H]. auto.
Qed.

Lemma includes_truthy (h needle : jsstring) :
  needle <> [] -> includes h needle = true -> truthy h = true.
Proof.
  intros Hn H. destruct h; [|reflexivity].
  simpl in H. destruct needle; [congruence|discriminate].
Qed.

(** Both revisions, once the three required roles are resolved and there
    is a data row. *)
Lemma SplitCSV_resolved (text header row : jsstring) (rows : list jsstring)
    (n c b : nat) :
  split newline (trim text) = header :: row :: rows ->
  findIndex isNameHeader (SplitCSV.headersOf header) = Some n ->
  findIndex isCourseHeader (SplitCSV.headersOf header) = Some c ->
  findIndex isBatchHeader (SplitCSV.headersOf header) = Some b ->
  SplitCSV.parseCSV text =
  mkParsed []
    (map (lineRecord n c b
            (findIndex isShiftHeader (SplitCSV.headersOf header))
            (findIndex isContactHeader (SplitCSV.headersOf header)))
         (filter (lineHasName n) (row :: rows))).
Proof.
  intros Hs Hn Hc Hb.
  unfold SplitCSV.parseCSV. rewrite Hs, Hn, Hc, Hb.
  now rewrite parseLines_map.
Qed.

Lemma PapaCSV_resolved (result : PapaCSV.ParseResult) (first : PapaCSV.Row)
    (rest : list PapaCSV.Row) (n c b : jsstring) :
  PapaCSV.errors result = [] ->
  PapaCSV.data result = first :: rest ->
  find isNameHeader (PapaCSV.keys first) = Some n ->
  find isCourseHeader (PapaCSV.keys first) = Some c ->
  find isBatchHeader (PapaCSV.keys first) = Some b ->
  PapaCSV.parseCSV_of result =
  mkParsed []
    (map (rowRecord n c b
            (find isShiftHeader (PapaCSV.keys first))
            (find isContactHeader (PapaCSV.keys first))
            (find isPresentHeader (PapaCSV.keys first)))
         (filter (rowHasName n) (first :: rest))).
Proof.
  intros He Hd Hn Hc Hb.
  unfold PapaCSV.parseCSV_of. rewrite He, Hd, Hn, Hc, Hb.
  assert (truthy n = true) as ->.
  { eapply find_truthy; [|exact Hn]. intros h.
    apply includes_truthy. discriminate. }
  assert (truthy c = true) as ->.
  { eapply find_truthy; [|exact Hc]. intros h. unfold isCourseHeader.
    rewrite orb_true_iff. intros [H|H]; revert H;
      apply includes_truthy; discriminate. }
  assert (truthy b = true) as ->.
  { eapply find_truthy; [|exact Hb]. intros h. unfold isBatchHeader.
    rewrite orb_true_iff. intros [H|H]; revert H;
      apply includes_truthy; discriminate. }
  cbn [andb]. now rewrite parseRows_map.
Qed.

End CsvImport.

(** C5 (as amended).  When a required role finds no header, [parseCSV]
    returns no record, whatever the data rows hold.  It shows the message
    about the missing columns exactly when the input has a data row (the
    first revision: a second line; the second revision: a row delivered by
    the library, which reported no error); an input of a header row alone
    gives the empty record set with no message. *)
Theorem parseCSV_unresolved_header :
  (forall text,
      resolves (SplitCSV.headersOf (hd [] (split newline (trim text)))) = false ->
      records (SplitCSV.parseCSV text) = [] /\
      alerts (SplitCSV.parseCSV text) =
        if (2 <=? length (split newline (trim text)))%nat
        then [missingColumns] else []) /\
  (forall result,
      resolves (PapaCSV.keys (hd [] (PapaCSV.data result))) = false ->
      records (PapaCSV.parseCSV_of result) = [] /\
      alerts (PapaCSV.parseCSV_of result) =
        match PapaCSV.errors result, PapaCSV.data result with
        | e :: _, _ => [str "CSV parsing error: " ++ e]
        | [], [] => []
        | [], _ :: _ => [missingColumns]
        end).
Proof. split; [exact SplitCSV_unresolved | exact PapaCSV_unresolved]. Qed.

Lemma parseCSV_unresolved_header_witness :
  records (SplitCSV.parseCSV (text_of ["id,title"; "7,Dune"]%string)) = [] /\
  alerts (SplitCSV.parseCSV (text_of ["id,title"; "7,Dune"]%string)) = [missingColumns].
Proof.
  exact (proj1 parseCSV_unresolved_header
               (text_of ["id,title"; "7,Dune"]%string) eq_refl).
Defined.

(** C5 as stated fails on an input of a header row alone: no required role
    finds a header in "id,title", and no message is shown. *)
Lemma parseCSV_header_only_silent :
  resolves (SplitCSV.headersOf (hd [] (split newline (trim (str "id,title"))))) = false /\
  SplitCSV.parseCSV (str "id,title") = mkParsed [] [].
Proof. split; reflexivity. Qed.



(* ================================================================== *)
(** ** CSV round trip *)
(* ================================================================== *)

Section RoundTrip.

Lemma split_from_lacks (sep : ascii) (p : jsstring) : forall cur s,
  lacks sep p ->
  split_from sep cur (p ++ s) = split_from sep (rev p ++ cur) s.
Proof.
  induction p as [|c p IH]; intros cur s H; simpl; auto.
  inversion H; subst. rewrite H2, IH by assumption.
  now rewrite <- app_assoc.
Qed.

Lemma split_cons (sep : ascii) (p s : jsstring) :
  lacks sep p -> split sep (p ++ sep :: s) = p :: split sep s.
Proof.
  intros H. unfold split. rewrite split_from_lacks by assumption.
  simpl. unfold ascii_eqb. rewrite Ascii.eqb_refl, app_nil_r.
  now rewrite rev_involutive.
Qed.

Lemma split_single (sep : ascii) (p : jsstring) :
  lacks sep p -> split sep p = [p].
Proof.
  intros H. unfold split. rewrite <- (app_nil_r p) at 1.
  rewrite split_from_lacks by assumption.
  simpl. now rewrite app_nil_r, rev_involutive.
Qed.

Lemma split_join (sep : ascii) (pieces : list jsstring) :
  pieces <> [] -> Forall (lacks sep) pieces ->
  split sep (join [sep] pieces) = pieces.
Proof.
  induction pieces as [|p rest IH]; intros Hne H; [congruence|].
  inversion H; subst. destruct rest as [|q rest].
  - simpl. now apply split_single.
  - change (join [sep] (p :: q :: rest)) with (p ++ sep :: join [sep] (q :: rest)).
    rewrite split_cons by assumption. f_equal.
    apply IH; [discriminate | assumption].
Qed.

Lemma lacks_app (sep : ascii) (p q : jsstring) :
  lacks sep p -> lacks sep q -> lacks sep (p ++ q).
Proof. intros; now apply Forall_app. Qed.

Lemma ends_ok_app (p q : jsstring) :
  q <> [] -> head_ok (rev q) -> head_ok (rev (p ++ q)).
Proof.
  intros Hne H. rewrite rev_app_distr.
  destruct (rev q) as [|c r] eqn:E.
  - apply (f_equal (@rev ascii)) in E. rewrite rev_involutive in E.
    simpl in E. congruence.
  - exact H.
Qed.

Lemma ends_ok_after (p q : jsstring) (c : ascii) :
  isSpace c = false -> head_ok (rev q) -> head_ok (rev (p ++ c :: q)).
Proof.
  intros Hc H. apply ends_ok_app; [discriminate|].
  simpl. destruct (rev q); simpl; auto.
Qed.

Lemma trimStart_app (u v : jsstring) :
  v <> [] -> head_ok v -> trimStart (u ++ v) = trimStart u ++ v.
Proof.
  intros Hne Hv. induction u as [|c u IH]; simpl.
  - now apply trimStart_fixed.
  - destruct (isSpace c); auto.
Qed.

(** Trimming at the end stops at the last code unit that is not white
    space. *)
Lemma trimEnd_app (p q : jsstring) :
  p <> [] -> head_ok (rev p) -> trimEnd (p ++ q) = p ++ trimEnd q.
Proof.
  intros Hne Hp. unfold trimEnd. rewrite rev_app_distr.
  rewrite trimStart_app; auto.
  - now rewrite rev_app_distr, rev_involutive.
  - intros E. apply (f_equal (@rev ascii)) in E.
    rewrite rev_involutive in E. now apply Hne.
Qed.

Lemma lacks_trimStart (sep : ascii) (s : jsstring) :
  lacks sep s -> lacks sep (trimStart s).
Proof.
  induction 1 as [|c s Hc Hs IH]; simpl; [constructor|].
  destruct (isSpace c); [exact IH | now constructor].
Qed.

Lemma lacks_trimEnd (sep : ascii) (s : jsstring) :
  lacks sep s -> lacks sep (trimEnd s).
Proof.
  intros H. unfold trimEnd, lacks.
  apply Forall_rev, lacks_trimStart, Forall_rev, H.
Qed.

Lemma join_snoc (sep : jsstring) (lines : list jsstring) (x : jsstring) :
  lines <> [] -> join sep (lines ++ [x]) = join sep lines ++ sep ++ x.
Proof.
  induction lines as [|l rest IH]; intros Hne; [congruence|].
  destruct rest as [|m rest]; [reflexivity|].
  change (join sep ((l :: m :: rest) ++ [x]))
    with (l ++ sep ++ join sep ((m :: rest) ++ [x])).
  rewrite IH by discriminate.
  change (join sep (l :: m :: rest)) with (l ++ sep ++ join sep (m :: rest)).
  now rewrite <- !app_assoc.
Qed.

Lemma join_head (sep : jsstring) (l : jsstring) (rest : list jsstring) :
  exists tail, join sep (l :: rest) = l ++ tail.
Proof.
  destruct rest as [|m rest].
  - exists []. simpl. now rewrite app_nil_r.
  - eexists. reflexivity.
Qed.

(** *** The exported lines *)

Lemma rowText_eq (a : Attendee) (ts : jsstring) :
  rowText (a, ts) =
  fullName a ++ comma :: course a ++ comma :: or_empty (shift a) ++ comma ::
  batch a ++ comma :: or_empty (contactNo a) ++ comma ::
  (if isPresent a then str "Yes" else str "No") ++ comma :: ts.
Proof. reflexivity. Qed.

Lemma rowText_app (a : Attendee) (ts : jsstring) :
  rowText (a, ts) = rowText (a, []) ++ ts.
Proof.
  rewrite !rowText_eq.
  repeat (rewrite <- app_assoc; rewrite <- app_comm_cons).
  reflexivity.
Qed.

(** Up to its last comma, a row is not empty and ends in that comma. *)
Lemma rowText_stem (a : Attendee) :
  rowText (a, []) <> [] /\ head_ok (rev (rowText (a, []))).
Proof.
  rewrite rowText_eq. split.
  - destruct (fullName a); discriminate.
  - repeat (apply ends_ok_after; [reflexivity|]). exact I.
Qed.

Lemma rowText_lacks (a : Attendee) (ts : jsstring) :
  exportable a -> lacks newline ts -> lacks newline (rowText (a, ts)).
Proof.
  intros (Hne & Hf & Hc & Hb & Hs & Hct) Ht. rewrite rowText_eq.
  repeat first [ apply lacks_app | apply Forall_cons; [reflexivity|] ];
    try solve [apply Hf | apply Hc | apply Hb | apply Hs | apply Hct | exact Ht].
  destruct (isPresent a); repeat constructor.
Qed.

Lemma cells_rowText (a : Attendee) (ts : jsstring) :
  exportable a ->
  exists more,
    cells (rowText (a, ts)) =
    fullName a :: course a :: or_empty (shift a) :: batch a ::
    or_empty (contactNo a) :: more.
Proof.
  intros (Hne & Hf & Hc & Hb & Hs & Hct).
  rewrite rowText_eq. unfold cells.
  rewrite !split_cons
    by first [apply Hf | apply Hc | apply Hb | apply Hs | apply Hct].
  cbn [map].
  rewrite !trim_fixed
    by first [apply Hf | apply Hc | apply Hb | apply Hs | apply Hct].
  eexists. reflexivity.
Qed.

Lemma lineRecord_rowText (a : Attendee) (ts : jsstring) :
  exportable a ->
  lineHasName 0 (rowText (a, ts)) = true /\
  tupleOfRecord (lineRecord 0 1 3 (Some 2%nat) (Some 4%nat) (rowText (a, ts))) =
  tupleOfAttendee a.
Proof.
  intros H. destruct (cells_rowText ts H) as (more & E).
  unfold lineHasName, lineRecord, tupleOfRecord, tupleOfAttendee.
  rewrite E. simpl. split; [|reflexivity].
  destruct H as (Hne & _). destruct (fullName a); [congruence|reflexivity].
Qed.

Lemma records_rowTexts (rows : list (Attendee * jsstring)) :
  Forall (fun row => exportable (fst row)) rows ->
  map tupleOfRecord
      (map (lineRecord 0 1 3 (Some 2%nat) (Some 4%nat))
           (filter (lineHasName 0) (map rowText rows))) =
  map tupleOfAttendee (map fst rows).
Proof.
  induction 1 as [|[a ts] rows Ha Hl IH]; [reflexivity|].
  simpl in Ha. destruct (lineRecord_rowText ts Ha) as [H1 H2].
  cbn [map filter fst]. rewrite H1. cbn [map]. now rewrite H2, IH.
Qed.

Lemma headerLine_line :
  lacks newline headerLine /\ headerLine <> [] /\ head_ok headerLine.
Proof. split; [repeat constructor | split; [discriminate | reflexivity]]. Qed.

(** [text.trim()] on the exported text touches the last cell of the last
    row only. *)
Lemma trim_exported (rows : list (Attendee * jsstring)) (a : Attendee)
    (ts : jsstring) :
  trim (join [newline] (headerLine :: map rowText (rows ++ [(a, ts)]))) =
  join [newline] (headerLine :: map rowText (rows ++ [(a, trimEnd ts)])).
Proof.
  rewrite !map_app. cbn [map].
  rewrite !app_comm_cons, !join_snoc by discriminate.
  rewrite (rowText_app a ts), (rowText_app a (trimEnd ts)), !app_assoc.
  set (p := (join [newline] (headerLine :: map rowText rows) ++ [newline]) ++
            rowText (a, [])).
  destruct (rowText_stem a) as [Hs1 Hs2].
  assert (p <> []) as Hp by (subst p; destruct (rowText (a, [])); 
                             [congruence | now destruct (_ ++ [newline])]).
  assert (head_ok (rev p)) as Hend by (subst p; now apply ends_ok_app).
  assert (head_ok (p ++ ts)) as Hhead.
  { subst p. destruct (join_head [newline] headerLine (map rowText rows))
      as (tail & ->). reflexivity. }
  unfold trim. rewrite trimStart_fixed by assumption.
  now apply trimEnd_app.
Qed.

(** The exported text, read back by the first revision of [parseCSV]. *)
Lemma parse_exported (rows : list (Attendee * jsstring)) :
  rows <> [] ->
  Forall (fun row => exportable (fst row) /\ lacks newline (snd row)) rows ->
  alerts (SplitCSV.parseCSV (join [newline] (headerLine :: map rowText rows))) = [] /\
  map tupleOfRecord
      (records (SplitCSV.parseCSV (join [newline] (headerLine :: map rowText rows))))
  = map tupleOfAttendee (map fst rows).
Proof.
  intros Hne Hall.
  destruct (exists_last Hne) as (init & [a ts] & ->).
  set (rows' := init ++ [(a, trimEnd ts)]).
  assert (Forall (fun row => exportable (fst row) /\ lacks newline (snd row)) rows')
    as Hall'.
  { apply Forall_app in Hall as [Hi Hl]. apply Forall_app. split; [exact Hi|].
    inversion Hl as [|? ? [Ha Ht] _]; subst.
    constructor; [|constructor].
    split; [exact Ha | now apply lacks_trimEnd]. }
  assert (split newline
            (trim (join [newline] (headerLine :: map rowText (init ++ [(a, ts)]))))
          = headerLine :: map rowText rows') as Hsplit.
  { rewrite trim_exported. apply split_join; [discriminate|].
    constructor; [apply headerLine_line|].
    apply Forall_map. eapply Forall_impl; [|exact Hall'].
    intros [b tb] [Hb Ht]. now apply rowText_lacks. }
  destruct (map rowText rows') as [|row more] eqn:E.
  { apply (f_equal (@length jsstring)) in E. subst rows'.
    rewrite length_map, length_app in E. simpl in E. lia. }
  rewrite (@SplitCSV_resolved _ headerLine row more 0%nat 1%nat 3%nat Hsplit
             eq_refl eq_refl eq_refl).
  cbn [alerts records]. split; [reflexivity|].
  change (findIndex isShiftHeader (SplitCSV.headersOf headerLine))
    with (Some 2%nat).
  change (findIndex isContactHeader (SplitCSV.headersOf headerLine))
    with (Some 4%nat).
  rewrite <- E, records_rowTexts.
  - subst rows'. now rewrite !map_app.
  - eapply Forall_impl; [|exact Hall']. simpl. tauto.
Qed.

Lemma exportCSV_lines (toLocaleString : Z -> jsstring) (a0 : Attendee)
    (rest : list Attendee) :
  exportCSV toLocaleString (a0 :: rest) =
  inr (join [newline]
            (headerLine ::
             map rowText (map (fun a => (a, stamp toLocaleString a)) (a0 :: rest)))).
Proof. unfold exportCSV. now rewrite !map_map. Qed.

End RoundTrip.

Section RoundTripPapa.

Variable toLocaleString : Z -> jsstring.

Lemma bare_lacks (s : jsstring) : bare s -> lacks newline s.
Proof.
  apply Forall_impl. intros c H.
  destruct (ascii_eqb c newline) eqn:E; [|reflexivity].
  apply Ascii.eqb_eq in E. subst c. discriminate H.
Qed.

Lemma bare_app (p q : jsstring) : bare p -> bare q -> bare (p ++ q).
Proof. intros; now apply Forall_app. Qed.

Lemma split_from_length (sep : ascii) (s : jsstring) : forall cur,
  length (split_from sep cur s) = S (occurrences sep s).
Proof.
  unfold occurrences.
  induction s as [|c s IH]; intros cur; simpl; [reflexivity|].
  destruct (ascii_eqb c sep); simpl; now rewrite IH.
Qed.

Lemma occurrences_app (sep : ascii) (p q : jsstring) :
  occurrences sep (p ++ q) = (occurrences sep p + occurrences sep q)%nat.
Proof. unfold occurrences. now rewrite filter_app, length_app. Qed.

Lemma lacks_occurrences (sep : ascii) (s : jsstring) :
  occurrences sep s = 0%nat -> lacks sep s.
Proof.
  unfold occurrences, lacks. induction s as [|c s IH]; simpl; [constructor|].
  destruct (ascii_eqb c sep) eqn:E; [discriminate|].
  intros H. constructor; auto.
Qed.

Lemma occurrences_sep (sep : ascii) (s : jsstring) :
  occurrences sep (sep :: s) = S (occurrences sep s).
Proof. unfold occurrences. simpl. unfold ascii_eqb. now rewrite Ascii.eqb_refl. Qed.

(** The cells of an exported row: seven, and one more for each comma in a
    field. *)
Lemma rowText_cells (a : Attendee) (ts : jsstring) :
  length (split comma (rowText (a, ts))) =
  (7 + (occurrences comma (fullName a) + occurrences comma (course a) +
        occurrences comma (or_empty (shift a)) + occurrences comma (batch a) +
        occurrences comma (or_empty (contactNo a)) + occurrences comma ts))%nat.
Proof.
  unfold split. rewrite split_from_length, rowText_eq.
  repeat (rewrite occurrences_app || rewrite occurrences_sep).
  destruct (isPresent a); simpl; lia.
Qed.

Lemma rowText_bare (a : Attendee) (ts : jsstring) :
  bare_record a -> bare ts -> bare (rowText (a, ts)) /\ rowText (a, ts) <> [].
Proof.
  intros (Hne & Hf & Hc & Hb & Hs & Hct) Ht. rewrite rowText_eq. split.
  - repeat first [ apply bare_app | apply Forall_cons; [reflexivity|] ];
      try solve [apply Hf | apply Hc | apply Hb | apply Hs | apply Hct | exact Ht].
    destruct (isPresent a); repeat constructor.
  - destruct (fullName a); discriminate.
Qed.

(** The row object of the exported row of a record without a comma in its
    fields: the cells of the record under the names of the header. *)
Lemma objectOf_rowText (a : Attendee) :
  commasIn toLocaleString a = 0%nat ->
  objectOf (rowText (a, stamp toLocaleString a)) =
  combine exportKeys (exportRow toLocaleString a).
Proof.
  intros Hz. unfold commasIn in Hz. unfold objectOf. f_equal.
  apply (@split_join comma (exportRow toLocaleString a)); [discriminate|].
  unfold exportRow.
  repeat (constructor; [apply lacks_occurrences; lia|]).
  constructor; [destruct (isPresent a); repeat constructor|].
  constructor; [|constructor].
  apply lacks_occurrences.
  change (occurrences comma (stamp toLocaleString a) = 0%nat). lia.
Qed.

(** What the loop of the second revision makes of it. *)
Lemma rowRecord_cells (a : Attendee) :
  fullName a <> [] ->
  rowHasName (str "full name")
             (combine exportKeys (exportRow toLocaleString a)) = true /\
  rowRecord (str "full name") (str "course") (str "batch")
            (Some (str "shift")) (Some (str "contact no.")) (Some (str "present"))
            (combine exportKeys (exportRow toLocaleString a)) = reimported a.
Proof.
  intros Hne. split.
  - change (truthy (fullName a) = true).
    destruct (fullName a); [congruence | reflexivity].
  - unfold rowRecord, reimported.
    change (PapaCSV.get (combine exportKeys (exportRow toLocaleString a))
                        (str "present"))
      with (Some (if isPresent a then str "Yes" else str "No")).
    destruct (isPresent a); reflexivity.
Qed.

Lemma records_cells (l : list Attendee) :
  Forall (fun a => fullName a <> []) l ->
  map (rowRecord (str "full name") (str "course") (str "batch")
                 (Some (str "shift")) (Some (str "contact no."))
                 (Some (str "present")))
      (filter (rowHasName (str "full name"))
              (map (fun a => combine exportKeys (exportRow toLocaleString a)) l)) =
  map reimported l.
Proof.
  induction 1 as [|a l Ha Hl IH]; [reflexivity|].
  destruct (@rowRecord_cells a Ha) as [H1 H2].
  cbn [map filter]. rewrite H1. cbn [map]. now rewrite H2, IH.
Qed.

Lemma objects_exported (l : list Attendee) :
  Forall (fun a => commasIn toLocaleString a = 0%nat) l ->
  map objectOf (map rowText (map (fun a => (a, stamp toLocaleString a)) l)) =
  map (fun a => combine exportKeys (exportRow toLocaleString a)) l.
Proof.
  intros H. rewrite !map_map. apply map_ext_in. intros a Ha.
  apply objectOf_rowText. revert a Ha. now apply Forall_forall.
Qed.

(** The lines of the export of records with bare fields. *)
Lemma exported_rows_bare (l : list Attendee) :
  bare_time toLocaleString -> Forall bare_record l ->
  Forall bare (map rowText (map (fun a => (a, stamp toLocaleString a)) l)) /\
  Forall (fun r => r <> [])
         (map rowText (map (fun a => (a, stamp toLocaleString a)) l)).
Proof.
  intros Ht Hl. rewrite map_map.
  assert (forall a, bare (stamp toLocaleString a)) as Hs.
  { intros a. unfold stamp. destruct (checkedInAt a) as [t|]; [|constructor].
    destruct (t =? 0); [constructor | apply Ht]. }
  split; apply Forall_map; (eapply Forall_impl; [|exact Hl]); intros a Ha;
    now apply rowText_bare.
Qed.

(** What the second revision returns once the library has reported an
    error. *)
Lemma PapaCSV_error (result : PapaCSV.ParseResult) :
  PapaCSV.errors result <> [] ->
  records (PapaCSV.parseCSV_of result) = [] /\
  alerts (PapaCSV.parseCSV_of result) <> [].
Proof.
  unfold PapaCSV.parseCSV_of. destruct (PapaCSV.errors result); [congruence|].
  intros _. split; [reflexivity | discriminate].
Qed.

End RoundTripPapa.

(** A parser that meets the assumption on the library. *)
Lemma plainParse_plain : Papa_plain plainParse.
Proof.
  intros rows Hb Hne.
  assert (split newline (join [newline] (headerLine :: rows)) = headerLine :: rows)
    as Hs.
  { apply split_join; [discriminate|].
    constructor; [apply headerLine_line|].
    eapply Forall_impl; [|exact Hb]. apply bare_lacks. }
  assert (filter truthy rows = rows) as Hf.
  { clear Hs Hb. induction Hne as [|r rows Hr _ IH]; [reflexivity|].
    simpl. destruct r; [congruence|]. simpl. now rewrite IH. }
  unfold plainParse. rewrite Hs. cbv zeta. rewrite Hf.
  change (map transformHeader (split comma headerLine)) with exportKeys.
  change (length exportKeys) with 7%nat.
  split; intros H.
  - assert (forallb (fun r => Nat.eqb (length (split comma r)) 7) rows = true)
      as ->; [|reflexivity].
    apply forallb_forall. intros r Hr. apply Nat.eqb_eq.
    revert r Hr. now apply Forall_forall.
  - assert (forallb (fun r => Nat.eqb (length (split comma r)) 7) rows = false)
      as ->; [|discriminate].
    apply Exists_exists in H as (r & Hr & Hn).
    destruct (forallb _ rows) eqn:E; [|reflexivity].
    rewrite forallb_forall in E. apply E in Hr. apply Nat.eqb_eq in Hr.
    congruence.
Qed.

(** C7 (as amended).  For a collection that is not empty:
    - first revision of [parseCSV]: when every [fullName], [course],
      [batch], [shift] and [contactNo] is free of commas and line breaks
      and has no white space at either end, every [fullName] is not empty,
      and the rendering of times holds no line break, the exported text
      read back gives no message and the tuples (fullName, course, batch,
      shift, contactNo) of the collection, in order, an unset [shift] or
      [contactNo] coming back as the empty string;
    - second revision, the library behaving on plain texts as [Papa_plain]
      says: when the fields and the rendering of times are bare and every
      [fullName] is not empty, the exported text read back gives the same
      tuples and the presence flags if no field and no rendered time of the
      collection holds a comma, and gives a message and no record at all if
      one of them does;
    - second revision, whatever the library does: once it reports an error
      nothing is imported. *)
Theorem export_import_roundtrip (toLocaleString : Z -> jsstring)
    (attendees : list Attendee)
    (Papa_parse : jsstring -> PapaCSV.ParseResult) :
  attendees <> [] ->
  (plain_time toLocaleString -> Forall exportable attendees ->
   exists csv,
     exportCSV toLocaleString attendees = inr csv /\
     alerts (SplitCSV.parseCSV csv) = [] /\
     roundTrip toLocaleString attendees = map tupleOfAttendee attendees) /\
  (Papa_plain Papa_parse -> bare_time toLocaleString ->
   Forall bare_record attendees ->
   exists csv,
     exportCSV toLocaleString attendees = inr csv /\
     (Forall (fun a => commasIn toLocaleString a = 0%nat) attendees ->
      alerts (PapaCSV.parseCSV Papa_parse csv) = [] /\
      map tupleOfRecord (records (PapaCSV.parseCSV Papa_parse csv))
        = map tupleOfAttendee attendees /\
      map newPresent (records (PapaCSV.parseCSV Papa_parse csv))
        = map (fun a => Some (isPresent a)) attendees) /\
     (Exists (fun a => commasIn toLocaleString a <> 0%nat) attendees ->
      records (PapaCSV.parseCSV Papa_parse csv) = [] /\
      alerts (PapaCSV.parseCSV Papa_parse csv) <> [])) /\
  (forall text,
     PapaCSV.errors (Papa_parse text) <> [] ->
     records (PapaCSV.parseCSV Papa_parse text) = [] /\
     alerts (PapaCSV.parseCSV Papa_parse text) <> []).
Proof.
  intros Hne. destruct attendees as [|a0 rest]; [congruence|].
  pose proof (exportCSV_lines toLocaleString a0 rest) as Hexp.
  split; [|split].
  - intros Ht Hall.
    set (rows := map (fun a => (a, stamp toLocaleString a)) (a0 :: rest)) in *.
    destruct (@parse_exported rows) as [H1 H2]; [discriminate| |].
    { subst rows. apply Forall_map. eapply Forall_impl; [|exact Hall].
      intros a Ha. split; [exact Ha|]. unfold stamp. simpl.
      destruct (checkedInAt a) as [t|]; [destruct (t =? 0)|];
        try constructor. apply Ht. }
    eexists. split; [exact Hexp|]. split; [exact H1|].
    unfold roundTrip. rewrite Hexp, H2. subst rows.
    f_equal. rewrite map_map. exact (map_id (a0 :: rest)).
  - intros Hp Ht Hall.
    eexists. split; [exact Hexp|].
    destruct (exported_rows_bare Ht Hall) as [Hb Hn].
    destruct (Hp _ Hb Hn) as [Hok Hbad]. unfold PapaCSV.parseCSV. split.
    + intros Hz. rewrite Hok.
      2:{ rewrite map_map. apply Forall_map.
          eapply Forall_impl; [|exact Hz]. intros a Ha. cbv beta.
          rewrite rowText_cells. unfold commasIn in Ha. lia. }
      rewrite (@objects_exported toLocaleString _ Hz).
      rewrite (@PapaCSV_resolved
                 (PapaCSV.mkResult []
                    (map (fun a => combine exportKeys (exportRow toLocaleString a))
                         (a0 :: rest)))
                 (combine exportKeys (exportRow toLocaleString a0))
                 (map (fun a => combine exportKeys (exportRow toLocaleString a))
                      rest)
                 (str "full name") (str "course") (str "batch")
                 eq_refl eq_refl eq_refl eq_refl eq_refl).
      cbn [alerts records].
      change (find isShiftHeader
                (PapaCSV.keys (combine exportKeys (exportRow toLocaleString a0))))
        with (Some (str "shift")).
      change (find isContactHeader
                (PapaCSV.keys (combine exportKeys (exportRow toLocaleString a0))))
        with (Some (str "contact no.")).
      change (find isPresentHeader
                (PapaCSV.keys (combine exportKeys (exportRow toLocaleString a0))))
        with (Some (str "present")).
      change (combine exportKeys (exportRow toLocaleString a0) ::
              map (fun a => combine exportKeys (exportRow toLocaleString a)) rest)
        with (map (fun a => combine exportKeys (exportRow toLocaleString a))
                  (a0 :: rest)).
      rewrite records_cells, !map_map.
      * repeat split; reflexivity.
      * eapply Forall_impl; [|exact Hall]. intros a Ha. apply Ha.
    + intros Hex. apply PapaCSV_error. apply Hbad.
      rewrite map_map. apply Exists_exists.
      apply Exists_exists in Hex as (a & Ha & Hz).
      exists (rowText (a, stamp toLocaleString a)). split.
      * apply in_map_iff. now exists a.
      * rewrite rowText_cells. unfold commasIn in Hz. lia.
  - intros text. apply PapaCSV_error.
Qed.

Lemma export_import_roundtrip_witness :
  roundTrip sampleLocale [meera; asha] =
    [tupleOfAttendee meera; tupleOfAttendee asha] /\
  (exists csv,
     exportCSV sampleLocale [meera; asha] = inr csv /\
     records (PapaCSV.parseCSV plainParse csv) = []) /\
  (exists csv,
     exportCSV sampleLocale [asha] = inr csv /\
     map tupleOfRecord (records (PapaCSV.parseCSV plainParse csv)) =
       [tupleOfAttendee asha]).
Proof.
  assert (bare_time sampleLocale) as Ht by (intros t; repeat constructor).
  assert (bare_record meera) as Hm.
  { split; [discriminate|]. repeat split; repeat constructor. }
  assert (bare_record asha) as Ha.
  { split; [discriminate|]. repeat split; repeat constructor. }
  destruct (@export_import_roundtrip sampleLocale [meera; asha] plainParse
              ltac:(discriminate)) as (H1 & H2 & _).
  split; [|split].
  - destruct H1 as (csv & _ & _ & H).
    + intros t. repeat constructor.
    + repeat constructor; discriminate.
    + exact H.
  - destruct (H2 plainParse_plain Ht) as (csv & He & _ & Hbad).
    + constructor; [exact Hm|]. constructor; [exact Ha | constructor].
    + exists csv. split; [exact He|]. apply Hbad.
      left. vm_compute. discriminate.
  - destruct (@export_import_roundtrip sampleLocale [asha] plainParse
                ltac:(discriminate)) as (_ & H3 & _).
    destruct (H3 plainParse_plain Ht) as (csv & He & Hok & _).
    + constructor; [exact Ha | constructor].
    + exists csv. split; [exact He|]. apply Hok.
      constructor; [reflexivity | constructor].
Defined.

(** C7 as stated fails on a name that holds a comma: the exported row of
    "Doe, John" has one cell more, the first revision reads the name "Doe"
    and the course "John", and the tuple of the record is not among those
    read back.  White space at the end of a name is lost as well. *)
Lemma roundtrip_comma_in_name :
  roundTrip sampleLocale [doeJohn] =
    [(str "Doe", str "John", str "Morning", str "BCA", str "2016")] /\
  ~ In (tupleOfAttendee doeJohn) (roundTrip sampleLocale [doeJohn]) /\
  ~ In (tupleOfAttendee annPadded) (roundTrip sampleLocale [annPadded]).
Proof.
  split; [vm_compute; reflexivity|]. split.
  - vm_compute. intros [H | []]. discriminate H.
  - vm_compute. intros [H | []]. discriminate H.
Qed.

(* ================================================================== *)
(** ** Further properties: the store *)
(* ================================================================== *)

Section StoreIds.

Lemma hasId_In (id : nat) (st : Store) :
  hasId id st = true <-> In id (map _id (docs st)).
Proof.
  unfold hasId. rewrite existsb_exists, in_map_iff. split.
  - intros (a & Ha & E). apply Nat.eqb_eq in E. now exists a.
  - intros (a & E & Ha). exists a. split; [exact Ha | now apply Nat.eqb_eq].
Qed.

Lemma patch_ids (id : nat) (f : Attendee -> Attendee) (l : list Attendee) :
  (forall a, _id (f a) = _id a) ->
  map _id (map (fun a => if Nat.eqb (_id a) id then f a else a) l) = map _id l.
Proof.
  intros Hf. rewrite map_map. apply map_ext.
  intros a. destruct (Nat.eqb (_id a) id); auto.
Qed.

Lemma db_patch_ids_ok (id : nat) (f : Attendee -> Attendee) (st st' : Store) :
  (forall a, _id (f a) = _id a) ->
  db_patch id f st = Some st' ->
  map _id (docs st') = map _id (docs st) /\ nextId st' = nextId st.
Proof.
  intros Hf H. apply db_patch_docs in H as [-> ->].
  split; [now apply patch_ids | reflexivity].
Qed.

Lemma ids_ok_same (st st' : Store) :
  map _id (docs st') = map _id (docs st) -> nextId st' = nextId st ->
  ids_ok st -> ids_ok st'.
Proof.
  unfold ids_ok. intros Hm Hn [H1 H2]. rewrite Hm, Hn. split; [exact H1|].
  rewrite Forall_forall in *. intros a Ha.
  assert (In (_id a) (map _id (docs st))) as Hin
    by (rewrite <- Hm; now apply in_map).
  apply in_map_iff in Hin as (b & <- & Hb). now apply H2.
Qed.

Lemma db_insert_ids_ok (mk : nat -> Attendee) (st : Store) :
  (forall id, _id (mk id) = id) ->
  ids_ok st -> ids_ok (fst (db_insert mk st)).
Proof.
  unfold ids_ok. intros Hmk [H1 H2]. simpl. split.
  - rewrite map_app. simpl. rewrite Hmk.
    apply NoDup_app; [exact H1 | repeat constructor; auto |].
    intros x Hx [<- | []].
    apply in_map_iff in Hx as (a & E & Ha).
    rewrite Forall_forall in H2. specialize (H2 a Ha). simpl in H2. lia.
  - apply Forall_app. split.
    + eapply Forall_impl; [|exact H2]. intros a Ha. simpl in *. lia.
    + constructor; [|constructor]. simpl. rewrite Hmk. lia.
Qed.

Lemma filter_ids_NoDup (keep : Attendee -> bool) (l : list Attendee) :
  NoDup (map _id l) -> NoDup (map _id (filter keep l)).
Proof.
  induction l as [|a l IH]; simpl; intros H; [constructor|].
  inversion H as [|? ? Ha Hl]; subst.
  destruct (keep a); simpl; auto.
  constructor; auto.
  intros Hin. apply Ha. apply in_map_iff in Hin as (d & E & Hd).
  apply filter_In in Hd as [Hd _]. apply in_map_iff. now exists d.
Qed.

Lemma db_delete_ids_ok (id : nat) (st st' : Store) :
  db_delete id st = Some st' -> ids_ok st -> ids_ok st'.
Proof.
  unfold db_delete, ids_ok. destruct (hasId id st); [|discriminate].
  intros [= <-] [H1 H2]. simpl. split.
  - now apply filter_ids_NoDup.
  - rewrite Forall_forall in *. intros a Ha.
    apply filter_In in Ha as [Ha _]. auto.
Qed.

Lemma setPresence_id (p : bool) (t : Z) (a : Attendee) :
  _id (setPresence p t a) = _id a.
Proof. reflexivity. Qed.

Lemma markBulkAttendance_ids (ids : list nat) (p : bool) : forall now st st',
  markBulkAttendance ids p now st = Some st' ->
  map _id (docs st') = map _id (docs st) /\ nextId st' = nextId st.
Proof.
  induction ids as [|id rest IH]; intros now st st' H; simpl in H.
  - injection H as <-. now split.
  - destruct (db_patch id (setPresence p (now O)) st) as [st1|] eqn:E;
      [|discriminate].
    apply db_patch_ids_ok in E as [E1 E2]; [|apply setPresence_id].
    apply IH in H as [H1 H2]. split; congruence.
Qed.

Lemma importOne_ids (a : NewAttendee) (now : Z) (st : Store) :
  ids_ok st ->
  ids_ok (fst (importOne a now st)) /\
  snd (importOne a now st) = nextId st /\
  nextId (fst (importOne a now st)) = S (nextId st) /\
  map _id (docs (fst (importOne a now st))) = map _id (docs st) ++ [nextId st].
Proof.
  intros Hok. unfold importOne. split; [|split; [|split]].
  - apply db_insert_ids_ok; auto.
  - reflexivity.
  - reflexivity.
  - simpl. now rewrite map_app.
Qed.

Lemma bulkImport_loop_ids (l : list NewAttendee) : forall now ids st,
  ids_ok st ->
  ids_ok (fst (bulkImport_loop l now ids st)) /\
  nextId (fst (bulkImport_loop l now ids st)) = (nextId st + length l)%nat /\
  snd (bulkImport_loop l now ids st) =
    ids ++ seq (nextId st) (length l) /\
  map _id (docs (fst (bulkImport_loop l now ids st))) =
    map _id (docs st) ++ seq (nextId st) (length l).
Proof.
  induction l as [|a rest IH]; intros now ids st Hok; cbn [bulkImport_loop].
  - simpl. rewrite !app_nil_r.
    split; [exact Hok|]. split; [lia|]. split; reflexivity.
  - destruct (importOne_ids a (now O) Hok) as (Hok1 & Hid & Hn & Hm).
    destruct (importOne a (now O) st) as [st1 id]. simpl in Hok1, Hid, Hn, Hm.
    destruct (IH (fun k => now (S k)) (ids ++ [id]) st1 Hok1)
      as (H1 & H2 & H3 & H4).
    split; [exact H1|]. split; [|split].
    + rewrite H2, Hn. simpl. lia.
    + rewrite H3, Hn, Hid. simpl. now rewrite <- app_assoc.
    + rewrite H4, Hm, Hn. simpl. now rewrite <- app_assoc.
Qed.

Lemma clearAll_loop_ids_ok (all : list Attendee) : forall st st',
  clearAll_loop all st = Some st' -> ids_ok st -> ids_ok st'.
Proof.
  induction all as [|a rest IH]; intros st st' H Hok; simpl in H.
  - now injection H as <-.
  - destruct (db_delete (_id a) st) as [st1|] eqn:E; [|discriminate].
    eapply IH; [exact H|]. eapply db_delete_ids_ok; eauto.
Qed.

Lemma step_ids_ok (st st' : Store) : step st st' -> ids_ok st -> ids_ok st'.
Proof.
  intros Hs H. destruct Hs as
    [id p now st st' Hm | ids p now st st' Hm | args st | l now st
    | id st st' Hd | st st' n Hc | st st' n Hr].
  - apply db_patch_ids_ok in Hm as [H1 H2]; [|apply setPresence_id].
    eapply ids_ok_same; eauto.
  - apply markBulkAttendance_ids in Hm as [H1 H2]. eapply ids_ok_same; eauto.
  - apply db_insert_ids_ok; auto.
  - unfold bulkImport.
    pose proof (@bulkImport_loop_ids l now [] st H) as (H1 & _).
    now destruct (bulkImport_loop l now [] st).
  - eapply db_delete_ids_ok; eauto.
  - unfold clearAll in Hc.
    destruct (clearAll_loop (docs st) st) as [st1|] eqn:E; [|discriminate].
    injection Hc as <- _. eapply clearAll_loop_ids_ok; eauto.
  - rewrite resetAttendance_total in Hr. injection Hr as <- _.
    eapply ids_ok_same; [| |exact H]; simpl; auto.
    rewrite map_map. reflexivity.
Qed.

Lemma reachable_ids_ok (st : Store) : reachable st -> ids_ok st.
Proof.
  induction 1 as [|st st' _ IH Hs].
  - split; constructor.
  - eapply step_ids_ok; eauto.
Qed.

End StoreIds.

Section StoreMutations.

Lemma hasId_filter_other (id id' : nat) (st : Store) :
  id <> id' ->
  hasId id (mkStore (filter (fun a => negb (Nat.eqb (_id a) id')) (docs st))
                    (nextId st)) = hasId id st.
Proof.
  intros Hne. unfold hasId. simpl.
  induction (docs st) as [|a l IH]; simpl; auto.
  destruct (Nat.eqb (_id a) id') eqn:E; simpl.
  - apply Nat.eqb_eq in E.
    assert (Nat.eqb (_id a) id = false) as -> by (apply Nat.eqb_neq; lia).
    exact IH.
  - now rewrite IH.
Qed.

(** The loop of [clearAll] over documents with distinct identifiers, all
    of them in the table: it does not throw, and removes them. *)
Lemma clearAll_loop_total (all : list Attendee) : forall st,
  NoDup (map _id all) ->
  (forall a, In a all -> hasId (_id a) st = true) ->
  clearAll_loop all st =
  Some (mkStore
          (filter (fun d => negb (existsb (fun a => Nat.eqb (_id d) (_id a)) all))
                  (docs st))
          (nextId st)).
Proof.
  induction all as [|a rest IH]; intros st Hnd Hin; simpl.
  - destruct st as [ds n]. simpl. f_equal. f_equal. clear.
    induction ds as [|d ds IHd]; simpl; [reflexivity | f_equal; exact IHd].
  - inversion Hnd as [|? ? Ha Hrest]; subst.
    unfold db_delete. rewrite (Hin a (or_introl eq_refl)).
    rewrite IH; auto.
    + simpl. f_equal. f_equal.
      induction (docs st) as [|d ds IHd]; simpl; auto.
      destruct (Nat.eqb (_id d) (_id a)); simpl; auto.
      destruct (existsb _ rest); simpl; auto. now rewrite IHd.
    + intros b Hb. rewrite hasId_filter_other.
      * apply Hin. now right.
      * intros E. apply Ha. rewrite <- E. now apply in_map.
Qed.

Lemma hasId_same (i : nat) (st st' : Store) :
  map _id (docs st') = map _id (docs st) -> hasId i st' = hasId i st.
Proof.
  intros H. apply Bool.eq_iff_eq_true. rewrite !hasId_In, H. tauto.
Qed.

Lemma markBulkAttendance_docs (ids : list nat) (p : bool) : forall now st st',
  markBulkAttendance ids p now st = Some st' ->
  Forall2 (fun a a' =>
             if existsb (Nat.eqb (_id a)) ids
             then exists t, a' = setPresence p t a
             else a' = a)
          (docs st) (docs st').
Proof.
  induction ids as [|id rest IH]; intros now st st' H; simpl in H.
  - injection H as <-. simpl.
    induction (docs st); constructor; auto.
  - destruct (db_patch id (setPresence p (now O)) st) as [st1|] eqn:E;
      [|discriminate].
    apply IH in H. apply db_patch_docs in E as [E _]. rewrite E in H.
    clear E IH. revert H. generalize (docs st'). 
    induction (docs st) as [|a l IHl]; intros l' H; inversion H; subst;
      constructor; auto.
    cbn [existsb]. clear IHl H.
    destruct (Nat.eqb (_id a) id) eqn:Ea; simpl in *.
    + destruct (existsb (Nat.eqb (_id a)) rest).
      * destruct H2 as [t ->]. now exists t.
      * subst. now exists (now O).
    + exact H2.
Qed.

Lemma hasId_patched (i id : nat) (p : bool) (t : Z) (st : Store) :
  hasId i (mkStore (map (fun a => if Nat.eqb (_id a) id
                                  then setPresence p t a else a) (docs st))
                   (nextId st)) = hasId i st.
Proof. apply hasId_same. simpl. apply patch_ids, setPresence_id. Qed.

Lemma markBulkAttendance_some (ids : list nat) (p : bool) : forall now st,
  Forall (fun id => hasId id st = true) ids ->
  exists st', markBulkAttendance ids p now st = Some st'.
Proof.
  induction ids as [|id rest IH]; intros now st H; simpl.
  - now exists st.
  - inversion H as [|? ? Hid Hrest]; subst.
    unfold db_patch at 1. rewrite Hid.
    apply IH. eapply Forall_impl; [|exact Hrest].
    intros i Hi. now rewrite hasId_patched.
Qed.

Lemma markBulkAttendance_none (ids : list nat) (p : bool) : forall now st,
  Exists (fun id => hasId id st = false) ids ->
  markBulkAttendance ids p now st = None.
Proof.
  induction ids as [|id rest IH]; intros now st H; simpl.
  - inversion H.
  - unfold db_patch at 1. destruct (hasId id st) eqn:Hid; [|reflexivity].
    apply IH. inversion H as [? ? Hx | ? ? Hx]; subst; [congruence|].
    eapply Exists_impl; [|exact Hx].
    intros i Hi. now rewrite hasId_patched.
Qed.

End StoreMutations.

Section StoreFacts.

Lemma filter_out_one (id : nat) (l : list Attendee) :
  NoDup (map _id l) -> In id (map _id l) ->
  S (length (filter (fun a => negb (Nat.eqb (_id a) id)) l)) = length l.
Proof.
  induction l as [|a l IH]; simpl; intros Hnd Hin; [contradiction|].
  inversion Hnd as [|? ? Ha Hl]; subst.
  destruct (Nat.eqb (_id a) id) eqn:E; simpl.
  - apply Nat.eqb_eq in E. subst id. f_equal.
    clear IH Hin Hnd Hl. induction l as [|b l IHl]; simpl; auto.
    destruct (Nat.eqb (_id b) (_id a)) eqn:Eb; simpl.
    + apply Nat.eqb_eq in Eb. exfalso. apply Ha. simpl. now left.
    + f_equal. apply IHl. intros H. apply Ha. simpl. now right.
  - f_equal. apply IH; auto.
    destruct Hin as [H|H]; [|exact H].
    apply Nat.eqb_neq in E. contradiction.
Qed.

Lemma bulkImport_loop_count (l : list NewAttendee) : forall now ids st,
  nextId (fst (bulkImport_loop l now ids st)) = (nextId st + length l)%nat /\
  snd (bulkImport_loop l now ids st) = ids ++ seq (nextId st) (length l) /\
  map _id (docs (fst (bulkImport_loop l now ids st))) =
    map _id (docs st) ++ seq (nextId st) (length l).
Proof.
  induction l as [|a rest IH]; intros now ids st; cbn [bulkImport_loop].
  - simpl. rewrite !app_nil_r. split; [lia|]. split; reflexivity.
  - unfold importOne, db_insert.
    destruct (IH (fun k => now (S k)) (ids ++ [nextId st])
                 (mkStore (docs st ++
                           [mkAttendee (nextId st) (newFullName a) (newCourse a)
                              (newShift a) (newBatch a) (newContactNo a)
                              (match newPresent a with Some b => b | None => false end)
                              (match newPresent a with
                               | Some true => Some (now O)
                               | _ => None
                               end)])
                          (S (nextId st))))
      as (H1 & H2 & H3).
    split; [|split].
    + rewrite H1. simpl. lia.
    + rewrite H2. simpl. now rewrite <- app_assoc.
    + rewrite H3. simpl. rewrite map_app. simpl. now rewrite <- app_assoc.
Qed.

End StoreFacts.

(** X2.  On a table whose identifiers are pairwise distinct (every table
    the mutations produce), [clearAll] does not fail, leaves no record and
    reports the number of records there were. *)
Theorem clearAll_empties (st : Store) :
  NoDup (map _id (docs st)) ->
  clearAll st = Some (mkStore [] (nextId st), length (docs st)).
Proof.
  intros Hnd. unfold clearAll. rewrite clearAll_loop_total; auto.
  - f_equal. f_equal. f_equal.
    assert (forall l, (forall d, In d l -> In d (docs st)) ->
              filter (fun d => negb (existsb (fun a => Nat.eqb (_id d) (_id a))
                                             (docs st))) l = []) as H.
    { induction l as [|d l IH]; intros Hl; simpl; auto.
      assert (existsb (fun a => Nat.eqb (_id d) (_id a)) (docs st) = true) as ->.
      { apply existsb_exists. exists d. split; [apply Hl; now left|].
        apply Nat.eqb_refl. }
      simpl. apply IH. intros x Hx. apply Hl. now right. }
    apply H. auto.
  - intros a Ha. apply hasId_In. now apply in_map.
Qed.

Lemma clearAll_empties_witness :
  clearAll twoRecords = Some (mkStore [] 2, 2%nat).
Proof.
  apply (clearAll_empties twoRecords).
  repeat constructor; simpl; intuition discriminate.
Defined.

(** X3.  [deleteAttendee] fails, leaving the table as it was, when no
    record has the identifier; otherwise it removes the records with that
    identifier and no other, keeps the counter of identifiers, and, the
    identifiers being distinct, makes the table one record shorter. *)
Theorem deleteAttendee_removes (id : nat) (st : Store) :
  (hasId id st = false -> deleteAttendee id st = None) /\
  (hasId id st = true ->
   exists st',
     deleteAttendee id st = Some st' /\
     nextId st' = nextId st /\
     (forall a, In a (docs st') <-> In a (docs st) /\ _id a <> id) /\
     (NoDup (map _id (docs st)) -> S (length (docs st')) = length (docs st))).
Proof.
  unfold deleteAttendee, db_delete. split; intros H; rewrite H; [reflexivity|].
  eexists. split; [reflexivity|]. simpl. split; [reflexivity|]. split.
  - intros a. rewrite filter_In, negb_true_iff, Nat.eqb_neq. tauto.
  - intros Hnd. apply filter_out_one; auto. now apply hasId_In.
Qed.

(** X4.  [markAttendance] fails when no record has the identifier;
    otherwise it keeps the number and the order of the records, changes no
    field other than [isPresent] and [checkedInAt], sets these two on the
    record with the identifier (the time given when present, none when
    absent) and leaves every other record as it was. *)
Theorem markAttendance_frame (id : nat) (p : bool) (now : Z) (st : Store) :
  (hasId id st = false -> markAttendance id p now st = None) /\
  (hasId id st = true ->
   exists st',
     markAttendance id p now st = Some st' /\
     nextId st' = nextId st /\
     Forall2 (fun a a' =>
                same_person a a' /\
                if Nat.eqb (_id a) id
                then isPresent a' = p /\
                     checkedInAt a' = (if p then Some now else None)
                else a' = a)
             (docs st) (docs st')).
Proof.
  unfold markAttendance, db_patch. split; intros H; rewrite H; [reflexivity|].
  eexists. split; [reflexivity|]. simpl. split; [reflexivity|].
  induction (docs st) as [|a l IH]; simpl; constructor; auto.
  destruct (Nat.eqb (_id a) id); unfold same_person; simpl; intuition.
Qed.

(** X5.  [markBulkAttendance] is all or nothing: it fails, leaving the
    table as it was, as soon as one identifier of the list has no record;
    when each has one, every record named in the list ends with the given
    presence, with a check-in time exactly when present, every other
    record is as it was, and no other field changes. *)
Theorem markBulkAttendance_all_or_nothing (ids : list nat) (p : bool)
    (now : nat -> Z) (st : Store) :
  (Exists (fun id => hasId id st = false) ids ->
   markBulkAttendance ids p now st = None) /\
  (Forall (fun id => hasId id st = true) ids ->
   exists st',
     markBulkAttendance ids p now st = Some st' /\
     Forall2 (fun a a' =>
                same_person a a' /\
                if existsb (Nat.eqb (_id a)) ids
                then isPresent a' = p /\ (checkedInAt a' <> None <-> p = true)
                else a' = a)
             (docs st) (docs st')).
Proof.
  split; [apply markBulkAttendance_none|].
  intros H. destruct (@markBulkAttendance_some ids p now st H) as [st' E].
  exists st'. split; [exact E|].
  apply markBulkAttendance_docs in E.
  eapply Forall2_impl; [|exact E].
  intros a a' Ha. simpl in Ha.
  destruct (existsb (Nat.eqb (_id a)) ids).
  - destruct Ha as [t ->]. unfold same_person. simpl.
    destruct p; intuition congruence.
  - subst. unfold same_person. intuition.
Qed.

(** X6.  [bulkImport] reports as many records as it was given and appends
    exactly that many to the table, one for each element and in the order
    given, each with the name, course and batch of its element, present
    when the element says so and absent otherwise; the records that were
    there keep their places. *)
Theorem bulkImport_count (attendees : list NewAttendee) (now : nat -> Z)
    (st : Store) :
  snd (bulkImport attendees now st) = length attendees /\
  exists new, docs (fst (bulkImport attendees now st)) = docs st ++ new /\
              length new = length attendees /\
              Forall2 imported_as attendees new.
Proof.
  pose proof (bulkImport_loop_count attendees now [] st) as (_ & H2 & _).
  destruct (bulkImport_docs attendees now st) as (new & Hn & Hf & _).
  unfold bulkImport in *.
  destruct (bulkImport_loop attendees now [] st) as [st' ids].
  simpl in *. subst ids. rewrite length_seq.
  split; [reflexivity|].
  exists new. split; [exact Hn|]. split; [|exact Hf].
  symmetry. eapply Forall2_length; eauto.
Qed.

(* ================================================================== *)
(** ** Further properties: queries, filters and sorting *)
(* ================================================================== *)

Section StringOrder.

Lemma code_inj (a b : ascii) : code a = code b -> a = b.
Proof.
  unfold code. intros H.
  rewrite <- (ascii_nat_embedding a), <- (ascii_nat_embedding b).
  now rewrite H.
Qed.

Lemma string_ltb_irrefl (a : jsstring) : string_ltb a a = false.
Proof.
  induction a as [|x a IH]; simpl; auto.
  rewrite Nat.ltb_irrefl, Nat.eqb_refl. exact IH.
Qed.

Lemma string_ltb_trans (a : jsstring) : forall b c,
  string_ltb a b = true -> string_ltb b c = true -> string_ltb a c = true.
Proof.
  induction a as [|x a IH]; intros [|y b] [|z c]; simpl; auto;
    try discriminate.
  rewrite !orb_true_iff, !andb_true_iff, !Nat.ltb_lt, !Nat.eqb_eq.
  intros [H1 | [H1 H2]] [H3 | [H3 H4]].
  - left. lia.
  - left. lia.
  - left. lia.
  - right. split; [lia|]. eapply IH; eauto.
Qed.

Lemma string_ltb_total (a : jsstring) : forall b,
  string_ltb a b = false -> string_ltb b a = false -> a = b.
Proof.
  induction a as [|x a IH]; intros [|y b]; simpl; auto; try discriminate.
  rewrite !orb_false_iff, !andb_false_iff, !Nat.ltb_ge, !Nat.eqb_neq.
  intros [H1 H2] [H3 H4].
  assert (code x = code y) as E by lia.
  apply code_inj in E. subst y. f_equal. apply IH.
  - destruct H2; [lia | assumption].
  - destruct H4; [lia | assumption].
Qed.

Lemma string_ltb_asym (a b : jsstring) :
  string_ltb a b = true -> string_ltb b a = false.
Proof.
  intros H. destruct (string_ltb b a) eqn:E; auto.
  pose proof (string_ltb_trans _ _ _ H E) as C.
  now rewrite string_ltb_irrefl in C.
Qed.

(** "Not above" is transitive. *)
Lemma string_leb_trans (a b c : jsstring) :
  string_ltb b a = false -> string_ltb c b = false -> string_ltb c a = false.
Proof.
  intros H1 H2. destruct (string_ltb c a) eqn:E; auto.
  destruct (string_ltb a b) eqn:E1.
  - pose proof (string_ltb_trans _ _ _ E E1) as C. congruence.
  - pose proof (string_ltb_total _ _ E1 H1) as ->. congruence.
Qed.

End StringOrder.

(** The stable sort, for a comparator that ranks the elements: any two are
    comparable, and the ranking is transitive. *)
Section StableSort.

Variable A : Type.
Variable cmp : A -> A -> Z.
Hypothesis cmp_total : forall a b, (cmp a b <=? 0) = false -> (cmp b a <=? 0) = true.
Hypothesis cmp_trans : forall a b c,
  (cmp a b <=? 0) = true -> (cmp b c <=? 0) = true -> (cmp a c <=? 0) = true.

Lemma sort_insert_in (x : A) (l : list A) :
  Permutation (x :: l) (sort_insert cmp x l).
Proof.
  induction l as [|y t IH]; simpl; auto.
  destruct (cmp x y <=? 0); auto.
  rewrite perm_swap. now constructor.
Qed.

Lemma sort_insert_ranked (x : A) (l : list A) :
  StronglySorted (fun a b => cmp a b <= 0) l ->
  StronglySorted (fun a b => cmp a b <= 0) (sort_insert cmp x l).
Proof.
  induction 1 as [|y t Hs IH Hy]; simpl.
  - repeat constructor.
  - destruct (cmp x y <=? 0) eqn:E.
    + constructor; [now constructor|].
      constructor; [now apply Z.leb_le|].
      eapply Forall_impl; [|exact Hy]. simpl. intros b Hb.
      apply Z.leb_le.
      apply cmp_trans with (b := y); [exact E | now apply Z.leb_le].
    + constructor; auto.
      eapply Permutation_Forall; [apply sort_insert_in|].
      constructor; auto. apply Z.leb_le. now apply cmp_total.
Qed.

Lemma Array_sort_ranked (l : list A) :
  StronglySorted (fun a b => cmp a b <= 0) (Array_sort cmp l).
Proof.
  induction l as [|x t IH]; simpl; [constructor|].
  now apply sort_insert_ranked.
Qed.

(** A class of elements none of which ranks above another keeps its
    order. *)
Variable p : A -> bool.
Hypothesis p_level : forall x y,
  p x = true -> p y = true -> (cmp x y <=? 0) = true.

Lemma sort_insert_stable (x : A) (l : list A) :
  filter p (sort_insert cmp x l) = filter p (x :: l).
Proof.
  induction l as [|y t IH]; [reflexivity|].
  cbn [sort_insert]. destruct (cmp x y <=? 0) eqn:E; [reflexivity|].
  cbn [filter] in *. rewrite IH.
  destruct (p x) eqn:Px, (p y) eqn:Py; try reflexivity.
  rewrite (p_level Px Py) in E. discriminate.
Qed.

Lemma Array_sort_stable (l : list A) :
  filter p (Array_sort cmp l) = filter p l.
Proof.
  induction l as [|x t IH]; [reflexivity|].
  cbn [Array_sort]. rewrite sort_insert_stable. cbn [filter]. now rewrite IH.
Qed.

End StableSort.

Section DistinctSorted.

Lemma existsb_string_eqb (v : jsstring) (l : list jsstring) :
  existsb (string_eqb v) l = true <-> In v l.
Proof.
  rewrite existsb_exists. split.
  - intros (x & Hx & E). apply string_eqb_eq in E. now subst.
  - intros H. exists v. split; [exact H | now apply string_eqb_eq].
Qed.

Lemma Set_from_spec (values : list jsstring) : forall seen,
  NoDup seen ->
  NoDup (Set_from seen values) /\
  (forall x, In x (Set_from seen values) <-> In x seen \/ In x values).
Proof.
  induction values as [|v rest IH]; intros seen Hnd; simpl.
  - split; [exact Hnd | tauto].
  - destruct (existsb (string_eqb v) seen) eqn:E.
    + apply existsb_string_eqb in E.
      destruct (IH seen Hnd) as [H1 H2]. split; [exact H1|].
      intros x. rewrite H2. intuition (subst; auto).
    + assert (~ In v seen) as Hv.
      { intros H. apply existsb_string_eqb in H. congruence. }
      destruct (IH (seen ++ [v])) as [H1 H2].
      { apply NoDup_app; auto.
        - repeat constructor. auto.
        - intros x Hx [<- | []]. contradiction. }
      split; [exact H1|].
      intros x. rewrite H2, in_app_iff. simpl. tauto.
Qed.

Lemma defaultCompare_leb (a b : jsstring) :
  (defaultCompare a b <=? 0) = string_leb a b.
Proof.
  unfold defaultCompare, string_leb.
  destruct (string_ltb a b) eqn:E1.
  - now rewrite (string_ltb_asym _ _ E1).
  - now destruct (string_ltb b a).
Qed.

Lemma ranked_strict (l : list jsstring) :
  StronglySorted (fun a b => defaultCompare a b <= 0) l -> NoDup l ->
  StronglySorted (fun a b => string_ltb a b = true) l.
Proof.
  induction 1 as [|a l Hs IH Ha]; intros Hnd; constructor.
  - apply IH. now inversion Hnd.
  - inversion Hnd as [|? ? Hna _]; subst.
    rewrite Forall_forall in *. intros b Hb.
    specialize (Ha b Hb). apply Z.leb_le in Ha.
    rewrite defaultCompare_leb in Ha. unfold string_leb in Ha.
    apply negb_true_iff in Ha.
    destruct (string_ltb a b) eqn:E; auto.
    pose proof (string_ltb_total _ _ E Ha). subst. contradiction.
Qed.

(** [distinctSorted]: strictly ascending, with the members of the input. *)
Lemma distinctSorted_spec (values : list jsstring) :
  StronglySorted (fun a b => string_ltb a b = true) (distinctSorted values) /\
  (forall x, In x (distinctSorted values) <-> In x values).
Proof.
  unfold distinctSorted.
  destruct (@Set_from_spec values [] (NoDup_nil _)) as [Hnd Hin].
  pose proof (Array_sort_perm defaultCompare (Set_from [] values)) as Hp.
  assert (NoDup (Array_sort defaultCompare (Set_from [] values))) as Hnd'
    by (eapply Permutation_NoDup; eauto).
  split.
  - assert (StronglySorted (fun a b => defaultCompare a b <= 0)
              (Array_sort defaultCompare (Set_from [] values))) as Hs.
    { apply Array_sort_ranked.
      - intros a b. rewrite !defaultCompare_leb. unfold string_leb.
        rewrite !negb_false_iff, negb_true_iff. apply string_ltb_asym.
      - intros a b c. rewrite !defaultCompare_leb. unfold string_leb.
        rewrite !negb_true_iff. intros H1 H2.
        now apply (string_leb_trans _ b). }
    now apply ranked_strict.
  - intros x. split.
    + intros H. apply (Permutation_in _ (Permutation_sym Hp)) in H.
      apply Hin in H as [[] | H]. exact H.
    + intros H. apply (Permutation_in _ Hp). apply Hin. now right.
Qed.

End DistinctSorted.

Section ColumnOrder.

Variable sortColumn : jsstring.

Lemma sortKey_shape :
  (exists f, forall a, sortKey sortColumn a = KStr (f a)) \/
  (exists g, forall a, sortKey sortColumn a = KNum (g a)).
Proof.
  unfold sortKey.
  repeat match goal with
         | |- context [if ?c then _ else _] => destruct c
         end;
    first [ left; eexists; intro; reflexivity
          | right; eexists; intro; reflexivity ].
Qed.

Lemma lt_key_asym (a b : Attendee) :
  lt_key sortColumn a b = true -> lt_key sortColumn b a = false.
Proof.
  unfold lt_key. destruct sortKey_shape as [[f H] | [g H]]; rewrite !H; simpl.
  - apply string_ltb_asym.
  - rewrite Z.ltb_lt, Z.ltb_ge. lia.
Qed.

Lemma le_key_trans (a b c : Attendee) :
  lt_key sortColumn b a = false -> lt_key sortColumn c b = false ->
  lt_key sortColumn c a = false.
Proof.
  unfold lt_key. destruct sortKey_shape as [[f H] | [g H]]; rewrite !H; simpl.
  - apply string_leb_trans.
  - rewrite !Z.ltb_ge. lia.
Qed.

Lemma compareFn_le (sortOrder : SortOrder) (a b : Attendee) :
  (compareFn sortColumn sortOrder a b <=? 0) =
  match sortOrder with
  | Asc => negb (lt_key sortColumn b a)
  | Desc => negb (lt_key sortColumn a b)
  end.
Proof.
  unfold compareFn. fold (lt_key sortColumn a b). fold (lt_key sortColumn b a).
  destruct (lt_key sortColumn a b) eqn:E1.
  - rewrite (lt_key_asym _ _ E1). now destruct sortOrder.
  - destruct (lt_key sortColumn b a); now destruct sortOrder.
Qed.

Lemma compareFn_zero (sortOrder : SortOrder) (a b : Attendee) :
  compareFn sortColumn sortOrder a b = 0 ->
  lt_key sortColumn a b = false /\ lt_key sortColumn b a = false.
Proof.
  unfold compareFn. fold (lt_key sortColumn a b). fold (lt_key sortColumn b a).
  destruct (lt_key sortColumn a b), (lt_key sortColumn b a), sortOrder; intros H;
    try discriminate; auto.
Qed.

Lemma compareFn_total (sortOrder : SortOrder) (a b : Attendee) :
  (compareFn sortColumn sortOrder a b <=? 0) = false ->
  (compareFn sortColumn sortOrder b a <=? 0) = true.
Proof.
  rewrite !compareFn_le. destruct sortOrder;
    rewrite negb_false_iff, negb_true_iff; apply lt_key_asym.
Qed.

Lemma compareFn_trans (sortOrder : SortOrder) (a b c : Attendee) :
  (compareFn sortColumn sortOrder a b <=? 0) = true ->
  (compareFn sortColumn sortOrder b c <=? 0) = true ->
  (compareFn sortColumn sortOrder a c <=? 0) = true.
Proof.
  rewrite !compareFn_le. destruct sortOrder; rewrite !negb_true_iff.
  - intros H1 H2. now apply (le_key_trans a b c).
  - intros H1 H2. now apply (le_key_trans c b a).
Qed.

End ColumnOrder.

(** X7.  [getFiltered] returns, in creation order, the records that pass
    every filter it was given; an empty string and [presentOnly: false]
    count as not given.  When no string given is the word "all", this is
    what the print view's [filteredData] shows for the same choices. *)
Theorem getFiltered_matches (args : FilterArgs) (st : Store) :
  getFiltered args st =
    filter (fun a =>
              (negb (cell_truthy (argCourse args)) ||
               string_eqb (course a) (or_empty (argCourse args))) &&
              (negb (cell_truthy (argBatch args)) ||
               string_eqb (batch a) (or_empty (argBatch args))) &&
              (negb (cell_truthy (argShift args)) ||
               shiftIs (or_empty (argShift args)) a) &&
              (negb (bool_truthy (argPresentOnly args)) || isPresent a))
           (docs st) /\
  (argCourse args <> Some (str "all") -> argBatch args <> Some (str "all") ->
   argShift args <> Some (str "all") ->
   getFiltered args st =
     filteredData (docs st) (asFilter (argCourse args)) (asFilter (argBatch args))
                  (asFilter (argShift args))
                  (if bool_truthy (argPresentOnly args)
                   then ShowPresent else ShowAll)).
Proof.
  assert (forall (p q : Attendee -> bool) l,
             filter p (filter q l) = filter (fun a => q a && p a) l) as Hff.
  { intros p q l. induction l as [|a l IH]; simpl; auto.
    destruct (q a); simpl; [destruct (p a)|]; now rewrite IH. }
  assert (forall l : list Attendee, l = filter (fun _ => true) l) as Hid.
  { induction l as [|a l IH]; simpl; congruence. }
  assert (getFiltered args st =
          filter (fun a =>
              (negb (cell_truthy (argCourse args)) ||
               string_eqb (course a) (or_empty (argCourse args))) &&
              (negb (cell_truthy (argBatch args)) ||
               string_eqb (batch a) (or_empty (argBatch args))) &&
              (negb (cell_truthy (argShift args)) ||
               shiftIs (or_empty (argShift args)) a) &&
              (negb (bool_truthy (argPresentOnly args)) || isPresent a))
           (docs st)) as Hmain.
  { unfold getFiltered.
    destruct (cell_truthy (argCourse args)), (cell_truthy (argBatch args)),
             (cell_truthy (argShift args)), (bool_truthy (argPresentOnly args));
      simpl; rewrite ?Hff; try (rewrite (Hid (docs st)) at 1; rewrite ?Hff);
      apply filter_ext; intros a; simpl;
      destruct (string_eqb (course a) (or_empty (argCourse args))),
               (string_eqb (batch a) (or_empty (argBatch args))),
               (shiftIs (or_empty (argShift args)) a), (isPresent a);
      reflexivity. }
  split; [exact Hmain|].
  intros Hc Hb Hs. rewrite Hmain. unfold filteredData.
  apply filter_ext. intros a.
  assert (forall v x, v <> Some (str "all") ->
             (negb (cell_truthy v) || string_eqb x (or_empty v)) =
             matchesExact (asFilter v) x) as Hex.
  { intros v x Hv. unfold matchesExact, asFilter.
    destruct (cell_truthy v) eqn:E; [|reflexivity].
    destruct v as [s|]; [|discriminate]. simpl.
    match goal with
    | |- context [string_eqb s ?t || _] => destruct (string_eqb s t) eqn:Es
    end; [|reflexivity].
    apply string_eqb_eq in Es. subst s. now elim Hv. }
  rewrite (Hex _ _ Hc), (Hex _ _ Hb). f_equal; [f_equal|].
  - unfold matchesExactOpt, asFilter, shiftIs.
    destruct (cell_truthy (argShift args)) eqn:E; [|reflexivity].
    destruct (argShift args) as [s|]; [|discriminate]. simpl.
    match goal with
    | |- context [string_eqb s ?t || _] => destruct (string_eqb s t) eqn:Es
    end; [|reflexivity].
    apply string_eqb_eq in Es. subst s. now elim Hs.
  - now destruct (bool_truthy (argPresentOnly args)).
Qed.

Lemma getFiltered_matches_witness :
  getFiltered (mkArgs (Some (str "BCA")) (Some []) None (Some true)) twoRecords =
  filteredData (docs twoRecords) (str "BCA") (str "all") (str "all") ShowPresent.
Proof.
  apply (getFiltered_matches
           (mkArgs (Some (str "BCA")) (Some []) None (Some true)) twoRecords);
    discriminate.
Defined.

(** X8.  [getCourses], [getBatches] and [getShifts] return the values that
    occur in the table, each once, in strictly ascending order of code
    units; [getShifts] leaves the records without a shift out. *)
Theorem distinct_values_sorted (st : Store) :
  StronglySorted (fun a b => string_ltb a b = true) (getCourses st) /\
  (forall c, In c (getCourses st) <-> exists a, In a (docs st) /\ course a = c) /\
  StronglySorted (fun a b => string_ltb a b = true) (getBatches st) /\
  (forall b, In b (getBatches st) <-> exists a, In a (docs st) /\ batch a = b) /\
  StronglySorted (fun a b => string_ltb a b = true) (getShifts st) /\
  (forall s, In s (getShifts st) <->
             exists a, In a (docs st) /\ shift a = Some s).
Proof.
  unfold getCourses, getBatches, getShifts.
  destruct (distinctSorted_spec (map course (docs st))) as [H1 H2].
  destruct (distinctSorted_spec (map batch (docs st))) as [H3 H4].
  destruct (distinctSorted_spec (definedShifts (docs st))) as [H5 H6].
  repeat split; auto.
  - intros H. apply H2, in_map_iff in H as (a & E & Ha). eauto.
  - intros (a & Ha & E). apply H2, in_map_iff. eauto.
  - intros H. apply H4, in_map_iff in H as (a & E & Ha). eauto.
  - intros (a & Ha & E). apply H4, in_map_iff. eauto.
  - intros H. apply H6 in H. unfold definedShifts in H.
    apply in_flat_map in H as (a & Ha & Hs). exists a. split; auto.
    destruct (shift a); simpl in Hs; intuition congruence.
  - intros (a & Ha & E). apply H6. unfold definedShifts.
    apply in_flat_map. exists a. split; auto. rewrite E. now left.
Qed.

(** X9.  Whatever the column and the direction, [sortedDataForExport]
    rearranges the records it is given, none lost and none added, so that
    no record stands before one with a smaller key (ascending) or with a
    larger key (descending). *)
Theorem sortedDataForExport_ordered (l : list Attendee) (sortColumn : jsstring)
    (sortOrder : SortOrder) :
  Permutation l (sortedDataForExport l sortColumn sortOrder) /\
  StronglySorted
    (fun a b =>
       match sortOrder with
       | Asc => key_ltb (sortKey sortColumn b) (sortKey sortColumn a)
       | Desc => key_ltb (sortKey sortColumn a) (sortKey sortColumn b)
       end = false)
    (sortedDataForExport l sortColumn sortOrder).
Proof.
  unfold sortedDataForExport. split; [apply Array_sort_perm|].
  pose proof (@Array_sort_ranked _ (compareFn sortColumn sortOrder)
                (compareFn_total sortColumn sortOrder)
                (compareFn_trans sortColumn sortOrder) l) as H.
  induction H as [|a t Hs IH Ha]; constructor; auto.
  eapply Forall_impl; [|exact Ha]. simpl. intros b Hb.
  apply Z.leb_le in Hb. rewrite compareFn_le in Hb. unfold lt_key in Hb.
  destruct sortOrder; now apply negb_true_iff in Hb.
Qed.

(** X10.  The sort is stable: the records that compare equal to a given
    one come out in the order they went in. *)
Theorem sortedDataForExport_stable (l : list Attendee) (sortColumn : jsstring)
    (sortOrder : SortOrder) (z : Attendee) :
  filter (fun a => compareFn sortColumn sortOrder z a =? 0)
         (sortedDataForExport l sortColumn sortOrder) =
  filter (fun a => compareFn sortColumn sortOrder z a =? 0) l.
Proof.
  unfold sortedDataForExport. apply Array_sort_stable.
  intros x y Hx Hy. apply Z.eqb_eq in Hx, Hy.
  apply compareFn_zero in Hx as [Hx1 Hx2], Hy as [Hy1 Hy2].
  rewrite compareFn_le. destruct sortOrder; apply negb_true_iff.
  - now apply (le_key_trans sortColumn x z y).
  - now apply (le_key_trans sortColumn y z x).
Qed.

(* ================================================================== *)
(** ** Further properties: the views and the admin console *)
(* ================================================================== *)

Section Views.

Lemma matchesSearch_empty (a : Attendee) : matchesSearch [] a = true.
Proof. unfold matchesSearch. simpl. now rewrite includes_nil. Qed.

Lemma filter_all {A} (p : A -> bool) (l : list A) :
  (forall a, p a = true) -> filter p l = l.
Proof.
  intros H. induction l as [|a l IH]; simpl; auto. now rewrite H, IH.
Qed.

Lemma filter_split_length {A} (p q : A -> bool) (l : list A) :
  (length (filter (fun a => p a && q a) l) +
   length (filter (fun a => p a && negb (q a)) l))%nat =
  length (filter (fun a => p a && true) l).
Proof.
  induction l as [|a l IH]; simpl; auto.
  destruct (p a), (q a); simpl; lia.
Qed.

Lemma bump_total (key : jsstring) (acc : Counts) : forall n,
  fold_left (fun sum count => (sum + count)%nat) (map snd (bump key acc)) n =
  S (fold_left (fun sum count => (sum + count)%nat) (map snd acc) n).
Proof.
  induction acc as [|[k c] rest IH]; intros n; simpl.
  - lia.
  - destruct (string_eqb k key); simpl.
    + assert (forall l m, fold_left (fun sum count => (sum + count)%nat) l (S m) =
                          S (fold_left (fun sum count => (sum + count)%nat) l m))
        as Hs.
      { induction l as [|x l IHl]; intros m; simpl; auto. }
      replace (n + S c)%nat with (S (n + c)) by lia. apply Hs.
    + apply IH.
Qed.

Lemma bump_countOf (key k : jsstring) (acc : Counts) :
  countOf k (bump key acc) =
  if string_eqb key k then S (countOf k acc) else countOf k acc.
Proof.
  induction acc as [|[k' c] rest IH]; simpl.
  - destruct (string_eqb key k); reflexivity.
  - destruct (string_eqb k' key) eqn:E1; simpl.
    + apply string_eqb_eq in E1. subst k'.
      destruct (string_eqb key k); reflexivity.
    + destruct (string_eqb k' k) eqn:E2; [|exact IH].
      apply string_eqb_eq in E2. subst k'.
      destruct (string_eqb key k) eqn:E3; [|reflexivity].
      apply string_eqb_eq in E3. subst key.
      rewrite (proj2 (string_eqb_eq k k) eq_refl) in E1. discriminate.
Qed.

Lemma bump_keys (key : jsstring) (acc : Counts) :
  NoDup (map fst acc) ->
  NoDup (map fst (bump key acc)) /\
  (forall k, In k (map fst (bump key acc)) <-> k = key \/ In k (map fst acc)).
Proof.
  induction acc as [|[k c] rest IH]; simpl; intros Hnd.
  - split; [repeat constructor; simpl; tauto | intros x; simpl; intuition].
  - inversion Hnd as [|? ? Hk Hrest]; subst.
    destruct (string_eqb k key) eqn:E; simpl.
    + apply string_eqb_eq in E. subst. split; [exact Hnd|].
      intros x. intuition.
    + destruct (IH Hrest) as [H1 H2]. split.
      * constructor; auto. rewrite H2. intros [-> | H]; [|contradiction].
        rewrite (proj2 (string_eqb_eq key key) eq_refl) in E. discriminate.
      * intros x. rewrite H2. intuition.
Qed.

Lemma courseWise_fold (l : list Attendee) : forall acc,
  NoDup (map fst acc) ->
  let counts := fold_left (fun acc a => bump (normalizeCourse (course a)) acc) l acc in
  totalPresentFromCourses counts = (totalPresentFromCourses acc + length l)%nat /\
  (forall k, countOf k counts =
             (countOf k acc +
              length (filter (fun a => string_eqb (normalizeCourse (course a)) k) l))%nat) /\
  NoDup (map fst counts) /\
  (forall k, In k (map fst counts) <->
             In k (map fst acc) \/ exists a, In a l /\ normalizeCourse (course a) = k).
Proof.
  unfold totalPresentFromCourses.
  induction l as [|a l IH]; intros acc Hnd; simpl.
  - repeat split; auto; try lia; try tauto.
    intros [H | (a & [] & _)]. exact H.
  - destruct (@bump_keys (normalizeCourse (course a)) acc Hnd) as [Hnd' Hk].
    destruct (IH _ Hnd') as (H1 & H2 & H3 & H4).
    split; [|split; [|split]].
    + rewrite H1, bump_total. lia.
    + intros k. rewrite H2, bump_countOf.
      destruct (string_eqb (normalizeCourse (course a)) k); simpl; lia.
    + exact H3.
    + intros k. rewrite H4, Hk. split.
      * intros [[-> | H] | (b & Hb & E)]; eauto.
      * intros [H | (b & [<- | Hb] & E)]; eauto.
Qed.

Lemma filter_filter {A} (p q : A -> bool) (l : list A) :
  filter p (filter q l) = filter (fun a => q a && p a) l.
Proof.
  induction l as [|a l IH]; simpl; auto.
  destruct (q a); simpl; [destruct (p a)|]; now rewrite IH.
Qed.

Lemma oldest_fold (l : list Attendee) : forall o,
  match fold_left oldestStep l o with
  | None => o = None /\ Forall (fun a => normalizeBatchYear (batch a) = None) l
  | Some m =>
      (o = Some m \/ exists a, In a l /\ normalizeBatchYear (batch a) = Some m) /\
      (forall y, o = Some y -> m <= y) /\
      (forall a y, In a l -> normalizeBatchYear (batch a) = Some y -> m <= y)
  end.
Proof.
  induction l as [|a l IH]; intros o; simpl.
  - destruct o as [m|].
    + split; [now left|]. split; [intros y [= <-]; lia | intros ? ? []].
    + split; [reflexivity | constructor].
  - specialize (IH (oldestStep o a)).
    destruct (fold_left oldestStep l (oldestStep o a)) as [m|].
    + destruct IH as (H1 & H2 & H3). unfold oldestStep in *.
      destruct (normalizeBatchYear (batch a)) as [ya|] eqn:Ea.
      * destruct o as [yo|].
        -- destruct (ya <? yo) eqn:Elt.
           ++ apply Z.ltb_lt in Elt. split; [|split].
              ** destruct H1 as [[= <-] | (b & Hb & E)]; right; eauto.
              ** intros y [= <-]. specialize (H2 ya eq_refl). lia.
              ** intros b y [<- | Hb] E; [|eauto].
                 rewrite Ea in E. injection E as <-. now apply H2.
           ++ apply Z.ltb_ge in Elt. split; [|split].
              ** destruct H1 as [H | (b & Hb & E)]; [now left | right; eauto].
              ** exact H2.
              ** intros b y [<- | Hb] E; [|eauto].
                 rewrite Ea in E. injection E as <-.
                 specialize (H2 yo eq_refl). lia.
        -- split; [|split].
           ++ destruct H1 as [[= <-] | (b & Hb & E)]; right; eauto.
           ++ discriminate.
           ++ intros b y [<- | Hb] E; [|eauto].
              rewrite Ea in E. injection E as <-. now apply H2.
      * split; [|split].
        -- destruct H1 as [H | (b & Hb & E)]; [now left | right; eauto].
        -- exact H2.
        -- intros b y [<- | Hb] E; [congruence | eauto].
    + destruct IH as (H1 & H2). unfold oldestStep in H1.
      destruct (normalizeBatchYear (batch a)) as [ya|] eqn:Ea.
      * destruct o as [yo|]; [destruct (ya <? yo)|]; discriminate.
      * split; [exact H1 | now constructor].
Qed.

End Views.

(** X11.  With nothing chosen ("all" everywhere, presence "all", an empty
    search) each of the three filters returns the records it was given,
    unchanged and in order; with any choice it returns some of them, never
    a record it was not given; and the roster's filter is the print view's
    with no shift chosen. *)
Theorem filters_without_choice (l : list Attendee) :
  filteredAttendees l [] (str "all") (str "all") ShowAll = l /\
  filteredData l (str "all") (str "all") (str "all") ShowAll = l /\
  Roster_filteredData l (str "all") (str "all") ShowAll = l /\
  (forall q c b show, incl (filteredAttendees l q c b show) l) /\
  (forall c b s show, incl (filteredData l c b s show) l) /\
  (forall c b show,
      Roster_filteredData l c b show = filteredData l c b (str "all") show).
Proof.
  repeat split.
  - apply filter_all. intros a. now rewrite matchesSearch_empty.
  - now apply filter_all.
  - now apply filter_all.
  - intros q c b show a Ha. now apply filter_In in Ha.
  - intros c b s show a Ha. now apply filter_In in Ha.
  - intros c b show. apply filter_ext. intros a.
    unfold matchesExactOpt. simpl. now rewrite andb_true_r.
Qed.

(** X12.  Under any choice of search, course, batch and shift, the records
    shown as "present" and those shown as "absent" together are as many as
    those shown as "all", in the admin console and in the print view; with
    nothing else chosen, the "present" view of the table has as many
    records as [getStats] counts present. *)
Theorem presence_views_partition (l : list Attendee) (q c b s : jsstring) :
  (length (filteredAttendees l q c b ShowPresent) +
   length (filteredAttendees l q c b ShowAbsent))%nat =
    length (filteredAttendees l q c b ShowAll) /\
  (length (filteredData l c b s ShowPresent) +
   length (filteredData l c b s ShowAbsent))%nat =
    length (filteredData l c b s ShowAll) /\
  (forall st,
      length (filteredAttendees (docs st) [] (str "all") (str "all") ShowPresent)
      = present (getStats st)).
Proof.
  split; [|split].
  - unfold filteredAttendees. simpl. apply filter_split_length.
  - unfold filteredData. simpl. apply filter_split_length.
  - intros st. unfold filteredAttendees, getStats. simpl. f_equal.
    apply filter_ext. intros a. now rewrite matchesSearch_empty.
Qed.

(** X13.  The print view prints records of the sorted list only, in its
    order: all of them when no row is selected, otherwise exactly those
    whose identifier is selected; and the summary's total is the sum of its
    present and absent counts. *)
Theorem print_selection (sorted : list Attendee) (selectedIds : list nat) :
  (selectedIds = [] -> dataToExport sorted selectedIds = sorted) /\
  (selectedIds <> [] ->
   forall a, In a (dataToExport sorted selectedIds) <->
             In a sorted /\ In (_id a) selectedIds) /\
  (exists p, dataToExport sorted selectedIds = filter p sorted) /\
  (let '(total, present, absent) :=
     printCounts (dataToExport sorted selectedIds) in
   total = (present + absent)%nat).
Proof.
  split; [|split; [|split]].
  - now intros ->.
  - intros Hne a. destruct selectedIds as [|i ids]; [congruence|].
    unfold dataToExport. rewrite filter_In, existsb_exists.
    split.
    + intros (H & x & Hx & E). apply Nat.eqb_eq in E. subst. now split.
    + intros (H & Hi). split; [exact H|].
      exists (_id a). split; [exact Hi | apply Nat.eqb_refl].
  - destruct selectedIds as [|i ids].
    + exists (fun _ => true). simpl. symmetry. now apply filter_all.
    + eexists. reflexivity.
  - unfold printCounts. generalize (dataToExport sorted selectedIds).
    induction l as [|a l IH]; simpl; auto.
    destruct (isPresent a); simpl; lia.
Qed.

(** X14.  [courseWiseCount] has one key for each course key of a present
    record and no other; the count under a key is the number of present
    records with that course key; and [totalPresentFromCourses] is the
    number of present records. *)
Theorem courseWiseCount_totals (l : list Attendee) :
  totalPresentFromCourses (courseWiseCount l) = countPresent l /\
  (forall k, countOf k (courseWiseCount l) = presentWithKey k l) /\
  NoDup (map fst (courseWiseCount l)) /\
  (forall k, In k (map fst (courseWiseCount l)) <->
             exists a, In a l /\ isPresent a = true /\
                       normalizeCourse (course a) = k).
Proof.
  destruct (@courseWise_fold (filter isPresent l) [] (NoDup_nil _))
    as (H1 & H2 & H3 & H4).
  unfold courseWiseCount. split; [|split; [|split]].
  - rewrite H1. simpl. apply filter_isPresent_count.
  - intros k. rewrite H2. simpl. unfold presentWithKey.
    now rewrite filter_filter.
  - exact H3.
  - intros k. rewrite H4. split.
    + intros [[] | (a & Ha & E)]. apply filter_In in Ha as [Ha Hp]. eauto.
    + intros (a & Ha & Hp & E). right. exists a. split; [|exact E].
      apply filter_In. now split.
Qed.

(** X15.  [oldestBatch] is "none" exactly when no record has a batch the
    normalisation can read; otherwise it is the normalised year of some
    record, and no record has an earlier one. *)
Theorem oldestBatch_minimum (l : list Attendee) :
  match oldestBatch l with
  | None => Forall (fun a => normalizeBatchYear (batch a) = None) l
  | Some m =>
      (exists a, In a l /\ normalizeBatchYear (batch a) = Some m) /\
      (forall a y, In a l -> normalizeBatchYear (batch a) = Some y -> m <= y)
  end.
Proof.
  pose proof (oldest_fold l None) as H. unfold oldestBatch.
  destruct (fold_left oldestStep l None) as [m|].
  - destruct H as ([H | H] & _ & H3); [discriminate|]. now split.
  - now destruct H.
Qed.

(* ================================================================== *)
(** ** Further properties: formatting, import and the add form *)
(* ================================================================== *)

Section Formatting.

Lemma year_toString (y : Z) :
  1980 <= y <= 2030 -> normalizeBatchYear (Number_toString y) = Some y.
Proof.
  intros H.
  assert (exists k, (k <= 50)%nat /\ y = 1980 + Z.of_nat k) as (k & Hk & ->).
  { exists (Z.to_nat (y - 1980)). lia. }
  clear H.
  do 51 (destruct k as [|k]; [vm_compute; reflexivity|]).
  lia.
Qed.

Lemma lowerChar_upperChar (c : ascii) : lowerChar (upperChar c) = lowerChar c.
Proof. destruct c as [[] [] [] [] [] [] [] []]; reflexivity. Qed.

Lemma isSpace_lowerChar (c : ascii) : isSpace (lowerChar c) = isSpace c.
Proof. destruct c as [[] [] [] [] [] [] [] []]; reflexivity. Qed.

Lemma isBlank_toLowerCase (s : jsstring) : isBlank (toLowerCase s) = isBlank s.
Proof.
  induction s as [|c s IH]; simpl; auto.
  now rewrite isSpace_lowerChar, IH.
Qed.

Lemma trimStart_pad (pad s : jsstring) :
  isBlank pad = true -> trimStart (pad ++ s) = trimStart s.
Proof.
  induction pad as [|c pad IH]; simpl; auto.
  intros H. apply andb_true_iff in H as [-> H]. auto.
Qed.

Lemma isBlank_rev (s : jsstring) : isBlank (rev s) = isBlank s.
Proof.
  unfold isBlank. induction s as [|c s IH]; simpl; auto.
  rewrite forallb_app, IH. simpl. rewrite andb_true_r. apply andb_comm.
Qed.

Lemma trimEnd_pad (s pad : jsstring) :
  isBlank pad = true -> trimEnd (s ++ pad) = trimEnd s.
Proof.
  intros H. unfold trimEnd. rewrite rev_app_distr, trimStart_pad; auto.
  now rewrite isBlank_rev.
Qed.

Lemma trimStart_app_blank (s t : jsstring) :
  isBlank t = true -> trimEnd (trimStart (s ++ t)) = trimEnd (trimStart s).
Proof.
  intros H. induction s as [|c s IH]; simpl.
  - rewrite trimStart_blank by assumption. reflexivity.
  - destruct (isSpace c); auto.
    rewrite app_comm_cons. now apply trimEnd_pad.
Qed.

Lemma trim_pad (pad s pad' : jsstring) :
  isBlank pad = true -> isBlank pad' = true ->
  trim (pad ++ s ++ pad') = trim s.
Proof.
  intros H H'. unfold trim. rewrite trimStart_pad by assumption.
  now apply trimStart_app_blank.
Qed.

(** [parsePresentValue] as a function of the word it decides on. *)
Lemma parsePresentValue_word (v : jsstring) :
  PapaCSV.parsePresentValue (Some v) =
  if existsb (string_eqb (presenceWord v)) presentWords then Some true
  else if existsb (string_eqb (presenceWord v)) absentWords then Some false
  else None.
Proof.
  unfold PapaCSV.parsePresentValue, presenceWord.
  destruct v as [|c v]; [reflexivity|].
  cbn [truthy negb existsb presentWords absentWords].
  now rewrite !orb_false_r, !orb_assoc.
Qed.

End Formatting.

(** X16.  What [formatBatchYear] prints normalises to the same year as the
    batch it was given, and formatting it again changes nothing; a batch
    without a year is printed as it is. *)
Theorem formatBatchYear_stable (batch : jsstring) :
  normalizeBatchYear (formatBatchYear batch) = normalizeBatchYear batch /\
  formatBatchYear (formatBatchYear batch) = formatBatchYear batch /\
  (normalizeBatchYear batch = None -> formatBatchYear batch = batch) /\
  (forall y, normalizeBatchYear batch = Some y ->
             formatBatchYear batch = Number_toString y).
Proof.
  assert (normalizeBatchYear (formatBatchYear batch) = normalizeBatchYear batch)
    as H.
  { unfold formatBatchYear.
    destruct (normalizeBatchYear batch) as [y|] eqn:E; [|exact E].
    pose proof (normalizeBatchYear_window _ E) as Hw.
    destruct (y =? 0) eqn:E0; [apply Z.eqb_eq in E0; lia|].
    now apply year_toString. }
  split; [exact H|]. split; [|split].
  - unfold formatBatchYear at 1. rewrite H. unfold formatBatchYear.
    destruct (normalizeBatchYear batch) as [y|] eqn:E; [|reflexivity].
    destruct (y =? 0); reflexivity.
  - intros E. unfold formatBatchYear. now rewrite E.
  - intros y E. unfold formatBatchYear. rewrite E.
    pose proof (normalizeBatchYear_window _ E) as Hw.
    destruct (y =? 0) eqn:E0; [apply Z.eqb_eq in E0; lia | reflexivity].
Qed.

(** X17.  [parsePresentValue] reads a presence cell without regard to case
    and to white space around it: it answers "present" exactly for the
    words true, yes, 1, present, "absent" exactly for false, no, 0, absent,
    and "not specified" for every other cell and for a missing one. *)
Theorem parsePresentValue_tolerant (v pad pad' : jsstring) :
  (isBlank pad = true -> isBlank pad' = true ->
   PapaCSV.parsePresentValue (Some (pad ++ toUpperCase v ++ pad')) =
   PapaCSV.parsePresentValue (Some v)) /\
  (PapaCSV.parsePresentValue (Some v) = Some true <->
   In (presenceWord v) presentWords) /\
  (PapaCSV.parsePresentValue (Some v) = Some false <->
   In (presenceWord v) absentWords) /\
  PapaCSV.parsePresentValue None = None.
Proof.
  split; [|split; [|split]].
  - intros H H'. rewrite !parsePresentValue_word.
    assert (presenceWord (pad ++ toUpperCase v ++ pad') = presenceWord v) as ->;
      [|reflexivity].
    unfold presenceWord, toLowerCase, toUpperCase.
    rewrite !map_app, map_map.
    rewrite (map_ext _ _ lowerChar_upperChar).
    apply trim_pad; fold (toLowerCase pad); fold (toLowerCase pad');
      now rewrite isBlank_toLowerCase.
  - rewrite parsePresentValue_word, <- existsb_string_eqb.
    destruct (existsb (string_eqb (presenceWord v)) presentWords);
      [tauto|].
    destruct (existsb (string_eqb (presenceWord v)) absentWords);
      split; discriminate.
  - rewrite parsePresentValue_word, <- existsb_string_eqb.
    destruct (existsb (string_eqb (presenceWord v)) presentWords) eqn:E1.
    + split; [discriminate|]. intros E2. exfalso.
      apply existsb_string_eqb in E1. apply existsb_string_eqb in E2.
      unfold presentWords, absentWords in *. simpl in E1, E2.
      intuition congruence.
    + destruct (existsb (string_eqb (presenceWord v)) absentWords);
        [tauto | split; discriminate].
  - reflexivity.
Qed.

Lemma parsePresentValue_tolerant_witness :
  PapaCSV.parsePresentValue (Some (str "  YES ")) =
  PapaCSV.parsePresentValue (Some (str "yes")).
Proof.
  exact (proj1 (parsePresentValue_tolerant (str "yes") (str "  ") (str " "))
               eq_refl eq_refl).
Defined.

Section ImportFacts.

Lemma lineRecord_named (n c b : nat) (s ct : option nat) (rows : list jsstring) :
  Forall (fun r => newFullName r <> [] /\ newPresent r = None)
         (map (lineRecord n c b s ct) (filter (lineHasName n) rows)).
Proof.
  apply Forall_map, Forall_forall. intros line H.
  apply filter_In in H as [_ H]. unfold lineHasName in H.
  unfold lineRecord. simpl. split; [|reflexivity].
  destruct (nth_error (cells line) n) as [v|]; [|discriminate].
  simpl in *. now destruct v.
Qed.

Lemma rowRecord_named (n c b : jsstring) (s ct p : option jsstring)
    (rows : list PapaCSV.Row) :
  Forall (fun r => newFullName r <> [])
         (map (rowRecord n c b s ct p) (filter (rowHasName n) rows)).
Proof.
  apply Forall_map, Forall_forall. intros row H.
  apply filter_In in H as [_ H]. unfold rowHasName in H.
  unfold rowRecord. simpl.
  destruct (PapaCSV.get row n) as [v|]; [|discriminate].
  simpl in *. now destruct v.
Qed.

Lemma filter_length_le {A} (p : A -> bool) (l : list A) :
  (length (filter p l) <= length l)%nat.
Proof. induction l as [|a l IH]; simpl; [|destruct (p a); simpl]; lia. Qed.

Lemma SplitCSV_records (text : jsstring) :
  Forall (fun r => newFullName r <> [] /\ newPresent r = None)
         (records (SplitCSV.parseCSV text)) /\
  (S (length (records (SplitCSV.parseCSV text)))
   <= length (split newline (trim text)))%nat.
Proof.
  unfold SplitCSV.parseCSV.
  destruct (split newline (trim text)) as [|header [|row rows]] eqn:E.
  - exfalso. revert E. apply split_from_nonempty.
  - simpl. split; [constructor | lia].
  - destruct (findIndex isNameHeader (SplitCSV.headersOf header)) as [n|];
      [|simpl; split; [constructor | lia]].
    destruct (findIndex isCourseHeader (SplitCSV.headersOf header)) as [c|];
      [|simpl; split; [constructor | lia]].
    destruct (findIndex isBatchHeader (SplitCSV.headersOf header)) as [b|];
      [|simpl; split; [constructor | lia]].
    cbn [records]. rewrite parseLines_map. cbn [app]. split.
    + apply lineRecord_named.
    + rewrite length_map.
      pose proof (filter_length_le (lineHasName n) (row :: rows)).
      simpl in *. lia.
Qed.

Lemma bulkImport_imported (l : list NewAttendee) (now : nat -> Z) (st : Store) :
  snd (bulkImport l now st) = length l.
Proof.
  pose proof (bulkImport_loop_count l now [] st) as (_ & H & _).
  unfold bulkImport.
  destruct (bulkImport_loop l now [] st) as [st' ids].
  simpl in *. subst ids. now rewrite length_seq.
Qed.

Lemma imported_absent (l : list NewAttendee) (new : list Attendee) :
  Forall2 imported_as l new ->
  Forall (fun r => newFullName r <> [] /\ newPresent r = None) l ->
  Forall (fun d => fullName d <> [] /\ isPresent d = false /\
                   checkedInAt d = None) new.
Proof.
  induction 1 as [|a d l l' Had Hl IH]; intros Hn; constructor.
  - inversion Hn as [|? ? [Hname Hpres] _]; subst.
    destruct Had as (Hfn & _ & _ & Hp & Hc).
    rewrite Hpres in Hp, Hc. rewrite Hfn.
    split; [exact Hname|]. split; [exact Hp|].
    destruct (checkedInAt d) as [t|]; [|reflexivity].
    assert (@None bool = Some true) as Habs
      by (apply (proj1 Hc); discriminate).
    discriminate Habs.
  - apply IH. now inversion Hn.
Qed.

End ImportFacts.

(** X18.  Neither revision of [parseCSV] ever returns a record with an
    empty name, whatever the input, nor more records than there are data
    rows; the records of the first revision say nothing about presence. *)
Theorem parseCSV_records_named :
  (forall text,
      Forall (fun r => newFullName r <> [] /\ newPresent r = None)
             (records (SplitCSV.parseCSV text)) /\
      (S (length (records (SplitCSV.parseCSV text)))
       <= length (split newline (trim text)))%nat) /\
  (forall result,
      Forall (fun r => newFullName r <> [])
             (records (PapaCSV.parseCSV_of result)) /\
      (length (records (PapaCSV.parseCSV_of result))
       <= length (PapaCSV.data result))%nat).
Proof.
  split; [exact SplitCSV_records|].
  intros result. unfold PapaCSV.parseCSV_of.
  destruct (PapaCSV.errors result); [|simpl; split; [constructor | lia]].
  destruct (PapaCSV.data result) as [|first rest];
    [simpl; split; [constructor | lia]|].
  repeat match goal with
         | |- context [match ?x with Some _ => _ | None => _ end] =>
             destruct x; [|simpl; split; [constructor | lia]]
         | |- context [if ?x then _ else _] =>
             destruct x; [|simpl; split; [constructor | lia]]
         end.
  cbn [records]. rewrite parseRows_map. cbn [app]. split.
  - apply rowRecord_named.
  - rewrite length_map. apply filter_length_le.
Qed.

(** X19.  [handleAddAttendee] stores nothing, keeps the dialog as it is
    and shows its message when the name, the course or the batch of the
    form is empty.  Otherwise, when the call of the mutation is rejected,
    it stores nothing, shows the error and keeps the form and the dialog
    open; when the call is delivered it shows nothing, clears the form,
    closes the dialog and appends one record with the fields of the form,
    marked absent with no check-in time, an empty shift or contact number
    being stored as not set.  Either way the dialog is no longer adding. *)
Theorem handleAddAttendee_validates (call : Call) (ui : AddDialog)
    (st : Store) :
  (formFullName (newAttendee ui) = [] \/ formCourse (newAttendee ui) = [] \/
   formBatch (newAttendee ui) = [] ->
   handleAddAttendee call ui st =
   ([str "Please fill in name, course, and batch fields."], st, ui)) /\
  (formFullName (newAttendee ui) <> [] -> formCourse (newAttendee ui) <> [] ->
   formBatch (newAttendee ui) <> [] ->
   match call with
   | Rejected message =>
       handleAddAttendee call ui st =
       ([str "Error adding attendee: " ++ message], st,
        mkDialog (newAttendee ui) (isAddDialogOpen ui) false)
   | Delivered =>
       exists d st',
         handleAddAttendee call ui st =
           ([], st', mkDialog emptyForm false false) /\
         docs st' = docs st ++ [d] /\
         fullName d = formFullName (newAttendee ui) /\
         course d = formCourse (newAttendee ui) /\
         batch d = formBatch (newAttendee ui) /\
         shift d = (if truthy (formShift (newAttendee ui))
                    then Some (formShift (newAttendee ui)) else None) /\
         contactNo d = (if truthy (formContactNo (newAttendee ui))
                        then Some (formContactNo (newAttendee ui)) else None) /\
         isPresent d = false /\ checkedInAt d = None
   end).
Proof.
  unfold handleAddAttendee. split.
  - intros [H | [H | H]]; rewrite H; simpl; rewrite ?orb_true_r; reflexivity.
  - intros H1 H2 H3.
    destruct (formFullName (newAttendee ui)) as [|? ?] eqn:E1; [congruence|].
    destruct (formCourse (newAttendee ui)) as [|? ?] eqn:E2; [congruence|].
    destruct (formBatch (newAttendee ui)) as [|? ?] eqn:E3; [congruence|].
    destruct call as [|message]; [|reflexivity].
    simpl. eexists. eexists. split; [reflexivity|]. simpl.
    repeat split; reflexivity.
Qed.

Lemma handleAddAttendee_validates_witness :
  handleAddAttendee (Rejected (str "offline")) sampleDialog emptyStore =
    ([str "Error adding attendee: offline"], emptyStore, sampleDialog) /\
  exists d st',
    handleAddAttendee Delivered sampleDialog emptyStore =
      ([], st', mkDialog emptyForm false false) /\
    docs st' = [d] /\ shift d = None /\ contactNo d = Some (str "98").
Proof.
  split.
  - apply (proj2 (handleAddAttendee_validates (Rejected (str "offline"))
                    sampleDialog emptyStore)); discriminate.
  - destruct (proj2 (handleAddAttendee_validates Delivered sampleDialog
                       emptyStore))
      as (d & st' & H & Hd & _ & _ & _ & Hs & Hc & _); try discriminate.
    exists d, st'. split; [exact H|]. split; [exact Hd|].
    split; [exact Hs | exact Hc].
Defined.

(** X20.  A file uploaded and imported through the first revision of
    [parseCSV]: when the parser returns no record, nothing is sent and the
    table stays as it was; when the call of [bulkImport] is rejected, the
    table stays as it was, the error is shown after the parser's messages
    and the preview is kept; when it is delivered, the records that were in
    the table stay as they were, as many records are appended as the parser
    returned, each with a name, absent and without check-in time, their
    number is reported and the panel is cleared. *)
Theorem uploadAndImport_adds_absent (text : jsstring) (call : Call)
    (now : nat -> Z) (ui : ImportPanel) (st : Store) :
  let parsed := SplitCSV.parseCSV text in
  let '(shown, st', ui') := uploadAndImport text call now ui st in
  match records parsed, call with
  | [], _ =>
      shown = alerts parsed /\ st' = st /\
      ui' = mkPanel text [] (importing ui)
  | _ :: _, Rejected message =>
      shown = alerts parsed ++ [str "Error importing: " ++ message] /\
      st' = st /\ ui' = mkPanel text (records parsed) false
  | _ :: _, Delivered =>
      exists new,
        docs st' = docs st ++ new /\
        length new = length (records parsed) /\
        Forall (fun d => fullName d <> [] /\ isPresent d = false /\
                         checkedInAt d = None) new /\
        shown = alerts parsed ++
                [str "Successfully imported " ++
                 Number_toString (Z.of_nat (length new)) ++
                 str " attendees!"] /\
        ui' = mkPanel [] [] false
  end.
Proof.
  unfold uploadAndImport, handleFileUpload, handleImport. cbn [preview csvData].
  destruct (SplitCSV_records text) as [Hnamed _].
  destruct (records (SplitCSV.parseCSV text)) as [|r rs] eqn:E.
  - rewrite app_nil_r. now repeat split.
  - destruct call as [|message]; [|now repeat split].
    pose proof (bulkImport_imported (r :: rs) now st) as Hc.
    destruct (bulkImport_docs (r :: rs) now st) as (new & Hd & Hf & _).
    destruct (bulkImport (r :: rs) now st) as [st' imported].
    simpl in Hc, Hd. subst imported.
    pose proof (Forall2_length Hf) as Hlen.
    exists new. split; [exact Hd|]. split; [now rewrite <- Hlen|].
    split; [now apply (imported_absent Hf)|].
    split; [|reflexivity]. now rewrite <- Hlen.
Qed.

(** X21.  Whatever the records hold, the export of a collection that is
    not empty is read back by the first revision of [parseCSV] without a
    message: its header line resolves the required columns. *)
Theorem export_headers_resolve (toLocaleString : Z -> jsstring)
    (attendees : list Attendee) :
  attendees <> [] ->
  exists csv,
    exportCSV toLocaleString attendees = inr csv /\
    alerts (SplitCSV.parseCSV csv) = [].
Proof.
  intros Hne. destruct attendees as [|a0 rest]; [congruence|].
  rewrite exportCSV_lines. eexists. split; [reflexivity|].
  set (rows := map (fun a => (a, stamp toLocaleString a)) (a0 :: rest)).
  assert (rows <> []) as Hrows by discriminate.
  destruct (exists_last Hrows) as (init & [a ts] & ->).
  assert (exists row more,
             split newline
               (trim (join [newline]
                        (headerLine :: map rowText (init ++ [(a, ts)]))))
             = headerLine :: row :: more) as (row & more & Hsplit).
  { rewrite trim_exported.
    destruct (map rowText (init ++ [(a, trimEnd ts)])) as [|r rs] eqn:E.
    { apply (f_equal (@length jsstring)) in E.
      rewrite length_map, length_app in E. simpl in E. lia. }
    change (join [newline] (headerLine :: r :: rs))
      with (headerLine ++ newline :: join [newline] (r :: rs)).
    rewrite split_cons by apply headerLine_line.
    destruct (split newline (join [newline] (r :: rs))) as [|x xs] eqn:Es.
    { exfalso. revert Es. apply split_from_nonempty. }
    now exists x, xs. }
  now rewrite (@SplitCSV_resolved _ headerLine row more 0%nat 1%nat 3%nat Hsplit
                 eq_refl eq_refl eq_refl).
Qed.

Lemma export_headers_resolve_witness :
  exists csv,
    exportCSV sampleLocale [doeJohn; annPadded] = inr csv /\
    alerts (SplitCSV.parseCSV csv) = [].
Proof.
  apply (export_headers_resolve sampleLocale (attendees := [doeJohn; annPadded])).
  discriminate.
Defined.

(* ================================================================== *)
(** ** Further properties: the statistics after a mutation *)
(* ================================================================== *)

Section StatsAfter.

Lemma patch_other (id : nat) (f : Attendee -> Attendee) (l : list Attendee) :
  ~ In id (map _id l) ->
  map (fun a => if Nat.eqb (_id a) id then f a else a) l = l.
Proof.
  induction l as [|a l IH]; simpl; intros H; auto.
  destruct (Nat.eqb (_id a) id) eqn:E.
  - apply Nat.eqb_eq in E. tauto.
  - f_equal. apply IH. tauto.
Qed.

Lemma patch_count (p : bool) (t : Z) (d : Attendee) (l : list Attendee) :
  NoDup (map _id l) -> In d l ->
  (countPresent (map (fun a => if Nat.eqb (_id a) (_id d)
                               then setPresence p t a else a) l)
   + (if isPresent d then 1 else 0)
   = countPresent l + (if p then 1 else 0))%nat.
Proof.
  induction l as [|a l IH]; simpl; intros Hnd Hin; [tauto|].
  inversion Hnd as [|? ? Hna Hnd']; subst.
  destruct Hin as [-> | Hin].
  - rewrite Nat.eqb_refl, patch_other by assumption. simpl.
    destruct p, (isPresent d); lia.
  - destruct (Nat.eqb (_id a) (_id d)) eqn:E.
    + apply Nat.eqb_eq in E. exfalso. apply Hna. rewrite E. now apply in_map.
    + specialize (IH Hnd' Hin). destruct (isPresent a); lia.
Qed.

Lemma countPresent_cleared (l : list Attendee) :
  countPresent (map clearPresence l) = 0%nat.
Proof. induction l as [|a l IH]; simpl; auto. Qed.

End StatsAfter.

(** X22.  In a table with distinct identifiers, marking the record [d]
    keeps the total of [getStats] and moves its count of present records
    by exactly the change of that one record: up by one when an absent
    record is marked present, down by one when a present one is marked
    absent, and not at all when the mark is what the record already had. *)
Theorem markAttendance_stats (d : Attendee) (p : bool) (now : Z)
    (st st' : Store) :
  NoDup (map _id (docs st)) -> In d (docs st) ->
  markAttendance (_id d) p now st = Some st' ->
  total (getStats st') = total (getStats st) /\
  (present (getStats st') + (if isPresent d then 1 else 0)
   = present (getStats st) + (if p then 1 else 0))%nat /\
  (present (getStats st') + absent (getStats st') = total (getStats st))%nat.
Proof.
  intros Hnd Hin Hm. unfold markAttendance, db_patch in Hm.
  destruct (hasId (_id d) st); [|discriminate].
  injection Hm as <-. unfold getStats. cbn [total present absent docs].
  rewrite !filter_isPresent_count, length_map.
  split; [reflexivity|]. split; [now apply patch_count|].
  pose proof (countPresent_le
                (map (fun a => if Nat.eqb (_id a) (_id d)
                               then setPresence p now a else a) (docs st))) as H.
  rewrite length_map in H. lia.
Qed.

Lemma markAttendance_stats_witness :
  exists st',
    markAttendance 1 true 5 twoRecords = Some st' /\
    (present (getStats st') + 0 = present (getStats twoRecords) + 1)%nat.
Proof.
  eexists. split; [reflexivity|].
  refine (proj1 (proj2 (@markAttendance_stats
                (mkAttendee 1 (str "Sita") (str "MCA") (Some (str "Morning"))
                            (str "17") None false None)
                true 5 twoRecords _ _ _ eq_refl))).
  - repeat constructor; simpl; intuition discriminate.
  - right. left. reflexivity.
Defined.

(** X23.  After [resetAttendance], [getStats] counts the same total, no
    record present and every record absent, and the records differ from
    the ones before in presence and check-in time at most. *)
Theorem resetAttendance_stats (st : Store) :
  exists st',
    resetAttendance st = Some (st', length (docs st)) /\
    total (getStats st') = total (getStats st) /\
    present (getStats st') = 0%nat /\
    absent (getStats st') = total (getStats st) /\
    Forall2 same_person (docs st) (docs st').
Proof.
  eexists. split; [apply resetAttendance_total|].
  unfold getStats. cbn [total present absent docs].
  rewrite !filter_isPresent_count, countPresent_cleared, length_map.
  repeat split; try lia.
  induction (docs st) as [|a l IH]; simpl; constructor; auto.
  unfold same_person. simpl. intuition.
Qed.
